(** * CMA-ES (evosax/strategies/cma_es.py): a shallow embedding

    The Python module is written against [jax.numpy]; its functions are
    generic in the array element type (float32 by default, float64 when
    x64 is enabled).  The embedding follows that structure:

    - [Scalar] and [Elementary] are the interface of the element type:
      arithmetic, square root, comparisons, and the transcendental
      functions [log] and [exp].  Every function of the module is
      translated once, over any instance.
    - [jnp.linalg.eigh] and [jax.random.normal] are library functions; they
      are parameters ([eigh], [normal]) of the functions that call them.
    - Python exceptions are values of [exn]; a function that can raise
      returns a [result].  [print] is modelled by the list of lines a call
      writes.
    - The module's dictionaries [params] and [memory] are the records
      [Params] and [Memory]; a function that assigns keys of [memory] and
      returns it is a function from the old record to the new one.

    Two instances are given.  [binary64] is IEEE-754 double precision
    (Rocq's primitive floats): everything over it evaluates, NaN and
    infinities included.  [xreal] is exact arithmetic on the reals extended
    with [+inf], [-inf] and [NaN] following the IEEE rules for the special
    values (no rounding, no overflow, no signed zero); the statements about
    sums and learning rates are proved there.

    Shapes are assumed consistent (a vector has [n_dim] entries, a matrix
    [n_dim] rows of [n_dim] entries, the population [pop_size] rows); the
    list operations below truncate where [jax.numpy] would refuse to
    broadcast. *)

From Stdlib Require Import String Ascii ZArith List Bool Lia.
From Stdlib Require Import Permutation Sorted.
From Stdlib Require Import Floats.
From Stdlib Require Import Reals Lra Psatz.
Import ListNotations.

Set Implicit Arguments.

(** ** Exceptions and results *)

Inductive exn : Type :=
| NameError (name : string)
| ZeroDivisionError
| ValueError
| IndexError.

Inductive result (A : Type) : Type :=
| Ok (a : A)
| Raise (e : exn).

Arguments Ok {A} a.
Arguments Raise {A} e.

Definition bind {A B : Type} (r : result A) (k : A -> result B) : result B :=
  match r with
  | Ok a => k a
  | Raise e => Raise e
  end.

Notation "x <- r ;; k" := (bind r (fun x => k))
  (at level 61, r at next level, right associativity).

(** ** The module's global names

    The names bound at the top level of [cma_es.py]: the three imports and
    the functions it defines.  A free variable of a function body that is
    not in this list (and is no builtin) raises [NameError] when it is
    evaluated. *)

Definition module_globals : list string :=
  [ "jax"; "jnp"; "jit";
    "init_strategy"; "ask_cma_strategy"; "eigen_decomposition";
    "tell_cma_strategy"; "ask"; "tell";
    "update_mean"; "update_p_sigma"; "update_p_c"; "update_covariance";
    "update_sigma"; "check_initialization"; "check_termination" ]%string.

Definition load_global (name : string) : result unit :=
  if existsb (String.eqb name) module_globals then Ok tt
  else Raise (NameError name).

(** ** The element type *)

Class Scalar (F : Type) : Type := {
  of_Z : Z -> F;
  fadd : F -> F -> F;
  fsub : F -> F -> F;
  fmul : F -> F -> F;
  fdiv : F -> F -> F;
  fsqrt : F -> F;
  fabs : F -> F;
  flt : F -> F -> bool;
  fle : F -> F -> bool;
  feq : F -> F -> bool
}.

Class Elementary (F : Type) : Type := {
  flog : F -> F;
  fexp : F -> F
}.

Declare Scope num_scope.
Delimit Scope num_scope with num.
Notation "x + y" := (fadd x y) : num_scope.
Notation "x - y" := (fsub x y) : num_scope.
Notation "x * y" := (fmul x y) : num_scope.
Notation "x / y" := (fdiv x y) : num_scope.
Notation "x <? y" := (flt x y) : num_scope.
Notation "x <=? y" := (fle x y) : num_scope.
Notation "x =? y" := (feq x y) : num_scope.

(** Python slices [l[:k]] and [l[k:]] for an integer [k] of either sign. *)

Definition slice_to {A : Type} (l : list A) (k : Z) : list A :=
  if (k <? 0)%Z then firstn (length l - Z.to_nat (- k)) l
  else firstn (Z.to_nat k) l.

Definition slice_from {A : Type} (l : list A) (k : Z) : list A :=
  if (k <? 0)%Z then skipn (length l - Z.to_nat (- k)) l
  else skipn (Z.to_nat k) l.

Fixpoint map2 {A B C : Type} (f : A -> B -> C) (l1 : list A) (l2 : list B)
  : list C :=
  match l1, l2 with
  | a :: l1', b :: l2' => f a b :: map2 f l1' l2'
  | _, _ => []
  end.

(** A list of [rows] rows of [cols] entries each. *)
Definition has_shape {A : Type} (rows cols : nat) (M : list (list A)) : Prop :=
  length M = rows /\ Forall (fun r => length r = cols) M.

Section Arrays.
Context {F : Type} `{Scalar F}.
Local Open Scope num_scope.

Definition vec : Type := list F.
Definition mat : Type := list (list F).

(** A decimal literal of the source, [m * 10^e]. *)
Definition lit (m e : Z) : F :=
  if (e <? 0)%Z then of_Z m / of_Z (10 ^ (- e)) else of_Z (m * 10 ^ e).

Definition zero : F := of_Z 0.
Definition one : F := of_Z 1.
Definition two : F := of_Z 2.

Definition fgt (x y : F) : bool := y <? x.
Definition fge (x y : F) : bool := y <=? x.
Definition isnan (x : F) : bool := negb (x =? x).
Definition sq (x : F) : F := x * x.

(** [jnp.minimum], [jnp.maximum]: a NaN operand gives NaN. *)
Definition jnp_minimum (a b : F) : F :=
  if isnan a then a else if isnan b then b else if b <? a then b else a.
Definition jnp_maximum (a b : F) : F :=
  if isnan a then a else if isnan b then b else if a <? b then b else a.

(** Python's builtin [min(a, b, c)]: the first argument is kept unless a
    later one compares strictly below the current minimum. *)
Definition py_min3 (a b c : F) : F :=
  let m := if b <? a then b else a in
  if c <? m then c else m.

(** [x ** n] for a Python integer [n] ([lax.integer_pow]: by squaring). *)
Fixpoint pow_pos (x : F) (p : positive) : F :=
  match p with
  | xH => x
  | xO p' => sq (pow_pos x p')
  | xI p' => x * sq (pow_pos x p')
  end.
Definition integer_pow (x : F) (n : Z) : F :=
  match n with
  | Z0 => one
  | Zpos p => pow_pos x p
  | Zneg p => one / pow_pos x p
  end.

Definition jnp_sum (v : vec) : F := fold_left fadd v zero.
Definition jnp_all (l : list bool) : bool := forallb (fun b => b) l.
Definition jnp_any (l : list bool) : bool := existsb (fun b => b) l.

(** [jnp.max], [jnp.min]: a zero-size array has no maximum. *)
Definition jnp_max (v : vec) : result F :=
  match v with
  | [] => Raise ValueError
  | x :: v' => Ok (fold_left jnp_maximum v' x)
  end.
Definition jnp_min (v : vec) : result F :=
  match v with
  | [] => Raise ValueError
  | x :: v' => Ok (fold_left jnp_minimum v' x)
  end.

(** The sum of the entries of [v] that are [>= 0], and of those that are
    [< 0] (the masks [v[v >= 0]] and [v[v < 0]]). *)
Definition sum_nonnegative (v : vec) : F :=
  jnp_sum (filter (fun x => fge x zero) v).
Definition sum_negative (v : vec) : F :=
  jnp_sum (filter (fun x => x <? zero) v).

Definition vadd (u v : vec) : vec := map2 fadd u v.
Definition vsub (u v : vec) : vec := map2 fsub u v.
Definition vscale (a : F) (v : vec) : vec := map (fun x => a * x) v.
Definition vdot (u v : vec) : F := jnp_sum (map2 fmul u v).
Definition norm (v : vec) : F := fsqrt (jnp_sum (map sq v)).

Definition madd (M N : mat) : mat := map2 vadd M N.
Definition mscale (a : F) (M : mat) : mat := map (vscale a) M.
Definition mdiv (M : mat) (a : F) : mat :=
  map (fun r => map (fun x => x / a) r) M.

(** [M.T] *)
Fixpoint transpose_cols (n : nat) (M : mat) : mat :=
  match n with
  | O => []
  | S n' => map (fun r => hd zero r) M
            :: transpose_cols n' (map (fun r => tl r) M)
  end.
Definition transpose (M : mat) : mat :=
  transpose_cols (length (hd [] M)) M.

(** [M.dot(v)] and [M.dot(N)] *)
Definition mvdot (M : mat) (v : vec) : vec := map (fun r => vdot r v) M.
Definition dot (M N : mat) : mat :=
  let Nt := transpose N in
  map (fun r => map (fun c => vdot r c) Nt) M.

Definition outer (u v : vec) : mat := map (fun a => vscale a v) u.

(** [jnp.eye(n)] *)
Definition unit_vector (n i : nat) : vec :=
  map (fun j => if Nat.eqb i j then one else zero) (seq 0 n).
Definition eye (n : nat) : mat := map (unit_vector n) (seq 0 n).
Definition zeros (n : nat) : vec := repeat zero n.

(** [jnp.diag] of a vector (the diagonal matrix) and of a matrix (its
    diagonal). *)
Definition diag (d : vec) : mat :=
  map (fun '(i, x) => map (fun j => if Nat.eqb i j then x else zero)
                          (seq 0 (length d)))
      (combine (seq 0 (length d)) d).
Fixpoint diagonal_from (i : nat) (M : mat) : vec :=
  match M with
  | [] => []
  | r :: M' =>
      match nth_error r i with
      | Some x => x :: diagonal_from (S i) M'
      | None => []
      end
  end.
Definition diagonal (M : mat) : vec := diagonal_from 0 M.

(** [v[0]] and [M[:, 0]] with a static index: out of bounds raises. *)
Definition index0 (v : vec) : result F :=
  match v with
  | [] => Raise IndexError
  | x :: _ => Ok x
  end.
Fixpoint column0 (M : mat) : result vec :=
  match M with
  | [] => Ok []
  | r :: M' =>
      x <- index0 r ;;
      c <- column0 M' ;;
      Ok (x :: c)
  end.

(** [argsort] on the first column, then the row gather: the rows in
    ascending order of their key, equal keys in their original order, NaN
    keys last. *)
Definition key_before (a b : F) : bool :=
  if isnan a then false else if isnan b then true else a <? b.
Fixpoint insert_row (x : F * vec) (l : list (F * vec)) : list (F * vec) :=
  match l with
  | [] => [x]
  | y :: l' =>
      if key_before (fst y) (fst x) then y :: insert_row x l'
      else x :: l
  end.
Definition sort_rows (l : list (F * vec)) : list (F * vec) :=
  fold_right insert_row [] l.

End Arrays.

(** ** The dictionaries [params] and [memory] *)

Record Params (F : Type) : Type := mkParams {
  pop_size : Z;
  mu : Z;
  mu_eff : F;
  c_1 : F;
  c_mu : F;
  c_m : Z;
  c_sigma : F;
  d_sigma : F;
  c_c : F;
  chi_n : F;
  weights : list F;
  tol_x : F;
  tol_x_up : F;
  tol_fun : F;
  tol_condition_C : F;
  min_generations : Z
}.

(** [B] and [D] are [None] in the source when the decomposition of [C] has
    to be recomputed. *)
Record Memory (F : Type) : Type := mkMemory {
  p_sigma : list F;
  p_c : list F;
  sigma : F;
  mean : list F;
  C : list (list F);
  D : option (list F);
  B : option (list (list F));
  generation : Z
}.

(** The six [if] statements of [check_termination], in source order, and the
    line each prints before it returns [True]. *)
Inductive stop : Type :=
| NoProgress
| VarianceTooSmall
| SigmaExploded
| NoEffectCoord
| NoEffectAxis
| ConditionExploded.

Definition message (s : stop) : string :=
  match s with
  | NoProgress => "TERMINATE ----> Convergence/No progress in objective"
  | VarianceTooSmall => "TERMINATE ----> Convergence/Search variance too small"
  | SigmaExploded => "TERMINATE ----> Stepsize sigma exploded"
  | NoEffectCoord => "TERMINATE ----> No effect when adding std to mean"
  | NoEffectAxis => "TERMINATE ----> No effect when adding std to mean"
  | ConditionExploded => "TERMINATE ----> C condition number exploded"
  end.

(** What a call of [check_termination] leaves behind: the value it returns
    and the lines it printed. *)
Definition report (b : option stop) : bool * list string :=
  match b with
  | Some s => (true, [message s])
  | None => (false, [])
  end.

(** [check_initialization] takes no argument and reads [population_size],
    [n_dim], [sigma], [c_1], [c_mu], [c_sigma] and [c_c] as globals; the
    comparisons of its [assert]s come after the lookups. *)
Definition check_initialization : result unit :=
  _ <- load_global "population_size" ;;
  _ <- load_global "n_dim" ;;
  _ <- load_global "sigma" ;;
  _ <- load_global "c_1" ;;
  _ <- load_global "c_mu" ;;
  _ <- load_global "c_sigma" ;;
  _ <- load_global "c_c" ;;
  Ok tt.

Section Model.
Context {F : Type} `{Scalar F} `{Elementary F}.
Local Open Scope num_scope.

(** [jnp.linalg.eigh]: eigenvalues in ascending order and the matrix whose
    columns are the eigenvectors. *)
Variable eigh : list (list F) -> list F * list (list F).

(** [jax.random.normal(rng, (rows, cols))] *)
Variable key : Type.
Variable normal : key -> nat -> nat -> list (list F).

(** *** init_strategy *)

Definition weights_prime (population_size : Z) : list F :=
  map (fun i => flog (of_Z (population_size + 1) / two)
                - flog (of_Z (Z.of_nat i + 1)))
      (seq 0 (Z.to_nat population_size)).

(** [(jnp.sum(w) ** 2) / jnp.sum(w ** 2)] *)
Definition effective_size (w : list F) : F :=
  sq (jnp_sum w) / jnp_sum (map sq w).

Definition mu_eff_of (population_size mu : Z) : F :=
  effective_size (slice_to (weights_prime population_size) mu).

Definition mu_eff_minus_of (population_size mu : Z) : F :=
  effective_size (slice_from (weights_prime population_size) mu).

Definition alpha_cov : F := two.

Definition c_1_of (n_dim : Z) (mu_eff : F) : F :=
  alpha_cov / (sq (of_Z n_dim + lit 13 (-1)) + mu_eff).

Definition c_mu_of (n_dim : Z) (mu_eff c_1 : F) : F :=
  jnp_minimum
    (one - c_1 - lit 1 (-8))
    (alpha_cov * (mu_eff - two + one / mu_eff)
     / (of_Z ((n_dim + 2) ^ 2) + alpha_cov * mu_eff / two)).

Definition min_alpha_of (n_dim : Z) (mu_eff mu_eff_minus c_1 c_mu : F) : F :=
  py_min3 (one + c_1 / c_mu)
          (one + (two * mu_eff_minus) / (mu_eff + two))
          ((one - c_1 - c_mu) / (of_Z n_dim * c_mu)).

Definition positive_sum (weights_prime : list F) : F :=
  jnp_sum (filter (fun w => fgt w zero) weights_prime).

Definition negative_sum (weights_prime : list F) : F :=
  jnp_sum (map fabs (filter (fun w => w <? zero) weights_prime)).

Definition weights_of (min_alpha : F) (weights_prime : list F) : list F :=
  map (fun w => if fge w zero
                then one / positive_sum weights_prime * w
                else min_alpha / negative_sum weights_prime * w)
      weights_prime.

Definition c_sigma_of (n_dim : Z) (mu_eff : F) : F :=
  (mu_eff + two) / (of_Z n_dim + mu_eff + of_Z 5).

Definition d_sigma_of (n_dim : Z) (mu_eff c_sigma : F) : F :=
  one + two * jnp_maximum zero
                (fsqrt ((mu_eff - one) / of_Z (n_dim + 1)) - one)
  + c_sigma.

Definition c_c_of (n_dim : Z) (mu_eff : F) : F :=
  (of_Z 4 + mu_eff / of_Z n_dim)
  / (of_Z (n_dim + 4) + two * mu_eff / of_Z n_dim).

(** [1.0 / (4.0 * n_dim)] and [1.0 / (21.0 * (n_dim ** 2))] divide Python
    floats: a zero divisor, which is [n_dim = 0], raises. *)
Definition chi_n_of (n_dim : Z) : result F :=
  if (n_dim =? 0)%Z then Raise ZeroDivisionError
  else Ok (fsqrt (of_Z n_dim)
           * (one - one / (of_Z 4 * of_Z n_dim)
              + one / (of_Z 21 * of_Z (n_dim ^ 2)))).

(** The value of the local variable [min_alpha] in a call. *)
Definition min_alpha (n_dim population_size mu : Z) : F :=
  let mu_eff := mu_eff_of population_size mu in
  let c_1 := c_1_of n_dim mu_eff in
  min_alpha_of n_dim mu_eff (mu_eff_minus_of population_size mu)
               c_1 (c_mu_of n_dim mu_eff c_1).

Definition init_strategy (mean_init : list F) (sigma : F)
    (population_size mu : Z) : result (Params F * Memory F) :=
  let n_dim := Z.of_nat (length mean_init) in
  let weights_prime := weights_prime population_size in
  let mu_eff := mu_eff_of population_size mu in
  let mu_eff_minus := mu_eff_minus_of population_size mu in
  let c_1 := c_1_of n_dim mu_eff in
  let c_mu := c_mu_of n_dim mu_eff c_1 in
  let min_alpha := min_alpha_of n_dim mu_eff mu_eff_minus c_1 c_mu in
  let weights := weights_of min_alpha weights_prime in
  let c_m := 1%Z in
  let c_sigma := c_sigma_of n_dim mu_eff in
  let d_sigma := d_sigma_of n_dim mu_eff c_sigma in
  let c_c := c_c_of n_dim mu_eff in
  chi_n <- chi_n_of n_dim ;;
  let p_sigma := zeros (length mean_init) in
  let p_c := zeros (length mean_init) in
  let params :=
    mkParams population_size mu mu_eff c_1 c_mu c_m c_sigma d_sigma c_c
             chi_n weights
             (lit 1 (-12) * sigma) (lit 1 4) (lit 1 (-12)) (lit 1 14)
             10%Z in
  let memory :=
    mkMemory p_sigma p_c sigma mean_init (eye (length mean_init))
             None None 0%Z in
  Ok (params, memory).

(** *** eigen_decomposition *)

Definition eigen_decomposition (C : list (list F))
    (B : option (list (list F))) (D : option (list F))
  : list (list F) * list (list F) * list F :=
  match B, D with
  | Some B, Some D => (C, B, D)
  | _, _ =>
      let C := mdiv (madd C (transpose C)) two in
      let '(D2, B) := eigh C in
      let D := map (fun d2 => fsqrt (if d2 <? zero then lit 1 (-20) else d2))
                   D2 in
      let C := dot (dot B (diag (map sq D))) (transpose B) in
      (C, B, D)
  end.

(** *** ask_cma_strategy *)

Definition ask_cma_strategy (rng : key) (memory : Memory F)
    (params : Params F) : list (list F) * Memory F :=
  let '(C', B', D') :=
    eigen_decomposition (C memory) (B memory) (D memory) in
  let z := normal rng (length (mean memory))
                  (Z.to_nat (pop_size params)) in
  let y := dot (dot B' (diag D')) z in
  let y := transpose y in
  let x := map (fun r => vadd (mean memory) (vscale (sigma memory) r)) y in
  (x, mkMemory (p_sigma memory) (p_c memory) (sigma memory) (mean memory)
               C' (Some D') (Some B') (generation memory)).

(** *** tell_cma_strategy and its five updates *)

Definition update_mean (sorted_solutions : list (list F)) (mu : Z)
    (params : Params F) (memory : Memory F)
  : list (list F) * list F * list F :=
  let x_k := map (fun r => tl r) sorted_solutions in
  let y_k := map (fun r => map (fun d => d / sigma memory)
                               (vsub r (mean memory))) x_k in
  let y_w := map (fun col => jnp_sum
                               (map2 fmul col (slice_to (weights params) mu)))
                 (transpose_cols (length (mean memory)) (slice_to y_k mu)) in
  let mean' := vadd (mean memory)
                    (vscale (of_Z (c_m params) * sigma memory) y_w) in
  (y_k, y_w, mean').

Definition update_p_sigma (y_w : list F) (params : Params F)
    (memory : Memory F)
  : list F * list (list F) * list (list F)
    * option (list (list F)) * option (list F) :=
  let '(C', B', D') :=
    eigen_decomposition (C memory) (B memory) (D memory) in
  let C_2 := dot (dot B' (diag (map (fun d => one / d) D'))) (transpose B') in
  let p_sigma_new :=
    vadd (vscale (one - c_sigma params) (p_sigma memory))
         (vscale (fsqrt (c_sigma params * (two - c_sigma params)
                         * mu_eff params))
                 (mvdot C_2 y_w)) in
  (p_sigma_new, C_2, C', None, None).

Definition update_p_c (y_w : list F) (params : Params F) (memory : Memory F)
  : list F * F * F :=
  let norm_p_sigma := norm (p_sigma memory) in
  let h_sigma_cond_left :=
    norm_p_sigma
    / fsqrt (one - integer_pow (one - c_sigma params)
                               (2 * (generation memory + 1))) in
  let h_sigma_cond_right :=
    (lit 14 (-1) + two / of_Z (Z.of_nat (length (mean memory)) + 1))
    * chi_n params in
  let h_sigma :=
    one * (if h_sigma_cond_left <? h_sigma_cond_right then one else zero) in
  let p_c' :=
    vadd (vscale (one - c_c params) (p_c memory))
         (vscale (h_sigma * fsqrt (c_c params * (two - c_c params)
                                   * mu_eff params))
                 y_w) in
  (p_c', norm_p_sigma, h_sigma).

Definition update_covariance (y_k : list (list F)) (h_sigma : F)
    (C_2 : list (list F)) (params : Params F) (memory : Memory F)
  : list (list F) :=
  let n := length (mean memory) in
  let w_io :=
    map2 (fun w y =>
            w * (if fge w zero then one
                 else of_Z (Z.of_nat n)
                      / (sq (norm (mvdot C_2 y)) + lit 1 (-20))))
         (weights params) y_k in
  let delta_h_sigma := (one - h_sigma) * c_c params * (two - c_c params) in
  let rank_one := outer (p_c memory) (p_c memory) in
  let rank_mu :=
    fold_left madd
              (map2 (fun w y => mscale w (outer y y)) w_io y_k)
              (repeat (zeros n) n) in
  madd (madd (mscale (one + c_1 params * delta_h_sigma - c_1 params
                      - c_mu params * jnp_sum (weights params))
                     (C memory))
             (mscale (c_1 params) rank_one))
       (mscale (c_mu params) rank_mu).

Definition update_sigma (norm_p_sigma : F) (params : Params F)
    (memory : Memory F) : F :=
  sigma memory
  * fexp ((c_sigma params / d_sigma params)
          * (norm_p_sigma / chi_n params - one)).

Definition tell_cma_strategy (x : list (list F)) (fitness : list F)
    (mu : Z) (params : Params F) (memory : Memory F) : Memory F :=
  let memory :=
    mkMemory (p_sigma memory) (p_c memory) (sigma memory) (mean memory)
             (C memory) (D memory) (B memory) (generation memory + 1) in
  let sorted_solutions :=
    map (fun '(f, r) => f :: r) (sort_rows (combine fitness x)) in
  let '(y_k, y_w, mean') := update_mean sorted_solutions mu params memory in
  let memory :=
    mkMemory (p_sigma memory) (p_c memory) (sigma memory) mean'
             (C memory) (D memory) (B memory) (generation memory) in
  let '(p_sigma', C_2, C', B', D') := update_p_sigma y_w params memory in
  let memory :=
    mkMemory p_sigma' (p_c memory) (sigma memory) (mean memory)
             C' D' B' (generation memory) in
  let '(p_c', norm_p_sigma, h_sigma) := update_p_c y_w params memory in
  let memory :=
    mkMemory (p_sigma memory) p_c' (sigma memory) (mean memory)
             (C memory) (D memory) (B memory) (generation memory) in
  let C'' := update_covariance y_k h_sigma C_2 params memory in
  let memory :=
    mkMemory (p_sigma memory) (p_c memory) (sigma memory) (mean memory)
             C'' (D memory) (B memory) (generation memory) in
  let sigma' := update_sigma norm_p_sigma params memory in
  mkMemory (p_sigma memory) (p_c memory) sigma' (mean memory)
           (C memory) (D memory) (B memory) (generation memory).

(** *** check_termination *)

(** Line 182: [generation > min_generations and max - min < tol_fun]. *)
Definition no_progress (values : list F) (params : Params F)
    (memory : Memory F) : result bool :=
  if (min_generations params <? generation memory)%Z then
    mx <- jnp_max values ;;
    mn <- jnp_min values ;;
    Ok (mx - mn <? tol_fun params)
  else Ok false.

(** Line 189: [jnp.all(sigma * dC < tol_x) and np.all(sigma * p_c < tol_x)].
    The right operand is evaluated only when the left one is true, and its
    evaluation starts with the lookup of the name [np]. *)
Definition variance_too_small (dC : list F) (params : Params F)
    (memory : Memory F) : result bool :=
  if jnp_all (map (fun c => sigma memory * c <? tol_x params) dC) then
    _ <- load_global "np" ;;
    Ok (jnp_all (map (fun p => sigma memory * p <? tol_x params)
                     (p_c memory)))
  else Ok false.

(** The second condition as section 4.5 of the specification words it:
    [sigma * sqrt(diag(C)) < tol_x] in every coordinate and
    [sigma * p_c < tol_x] elementwise. *)
Definition spec_variance_too_small (dC : list F) (params : Params F)
    (memory : Memory F) : bool :=
  jnp_all (map (fun c => sigma memory * fsqrt c <? tol_x params) dC)
  && jnp_all (map (fun p => sigma memory * p <? tol_x params) (p_c memory)).

(** Line 195 *)
Definition sigma_exploded (D : list F) (params : Params F)
    (memory : Memory F) : result bool :=
  mx <- jnp_max D ;;
  Ok (fgt (sigma memory * mx) (tol_x_up params)).

(** Line 201 *)
Definition no_effect_coord (dC : list F) (memory : Memory F) : bool :=
  jnp_any (map2 feq (mean memory)
                (vadd (mean memory)
                      (vscale (lit 2 (-1) * sigma memory)
                              (map fsqrt dC)))).

(** Line 207 *)
Definition no_effect_axis (B : list (list F)) (D : list F)
    (memory : Memory F) : result bool :=
  d0 <- index0 D ;;
  b0 <- column0 B ;;
  Ok (jnp_all (map2 feq (mean memory)
                    (vadd (mean memory)
                          (vscale (lit 1 (-1) * sigma memory * d0) b0)))).

(** Lines 213-214 *)
Definition condition_exploded (D : list F) (params : Params F)
  : result bool :=
  mx <- jnp_max D ;;
  mn <- jnp_min D ;;
  Ok (fgt (mx / mn) (tol_condition_C params)).

(** The [if] statement whose body a call runs, if any. *)
Definition stopping_condition (values : list F) (params : Params F)
    (memory : Memory F) : result (option stop) :=
  let dC := diagonal (C memory) in
  let '(_, B', D') :=
    eigen_decomposition (C memory) (B memory) (D memory) in
  c1 <- no_progress values params memory ;;
  if c1 then Ok (Some NoProgress) else
  c2 <- variance_too_small dC params memory ;;
  if c2 then Ok (Some VarianceTooSmall) else
  c3 <- sigma_exploded D' params memory ;;
  if c3 then Ok (Some SigmaExploded) else
  if no_effect_coord dC memory then Ok (Some NoEffectCoord) else
  c5 <- no_effect_axis B' D' memory ;;
  if c5 then Ok (Some NoEffectAxis) else
  c6 <- condition_exploded D' params ;;
  if c6 then Ok (Some ConditionExploded) else
  Ok None.

(** Each body is [print(message); return True]; the function ends with
    [return False]. *)
Definition check_termination (values : list F) (params : Params F)
    (memory : Memory F) : result (bool * list string) :=
  s <- stopping_condition values params memory ;;
  Ok (report s).

End Model.

(** ** A symmetric eigensolver

    The cyclic Jacobi method, over any element type: an instance of the
    parameter [eigh] with which the functions above evaluate.  Rotations in
    the planes [(p, q)], [p < q], are applied for a fixed number of sweeps;
    the eigenvalues are returned in ascending order with their eigenvectors
    as columns, as [jnp.linalg.eigh] returns them. *)

Section Jacobi.
Context {F : Type} `{Scalar F}.
Local Open Scope num_scope.

Definition entry (M : list (list F)) (i j : nat) : F :=
  nth j (nth i M []) zero.

Definition rotation (n p q : nat) (c s : F) : list (list F) :=
  map (fun i =>
         map (fun j =>
                if Nat.eqb i p && Nat.eqb j p then c
                else if Nat.eqb i q && Nat.eqb j q then c
                else if Nat.eqb i p && Nat.eqb j q then s
                else if Nat.eqb i q && Nat.eqb j p then zero - s
                else if Nat.eqb i j then one else zero)
             (seq 0 n))
      (seq 0 n).

Definition jacobi_rotate (n : nat) (AV : list (list F) * list (list F))
    (pq : nat * nat) : list (list F) * list (list F) :=
  let '(A, V) := AV in
  let '(p, q) := pq in
  let apq := entry A p q in
  if apq =? zero then AV else
  let theta := (entry A q q - entry A p p) / (two * apq) in
  let t := (if theta <? zero then zero - one else one)
           / (fabs theta + fsqrt (sq theta + one)) in
  let c := one / fsqrt (sq t + one) in
  let s := t * c in
  let J := rotation n p q c s in
  (dot (dot (transpose J) A) J, dot V J).

Definition planes (n : nat) : list (nat * nat) :=
  flat_map (fun p => map (fun q => (p, q)) (seq (S p) (n - S p))) (seq 0 n).

Definition sweep (n : nat) (AV : list (list F) * list (list F))
  : list (list F) * list (list F) :=
  fold_left (jacobi_rotate n) (planes n) AV.

Definition jacobi_eigh (A : list (list F)) : list F * list (list F) :=
  let n := length A in
  let '(A', V) := Nat.iter 10 (sweep n) (A, eye n) in
  let cols := sort_rows (combine (diagonal A') (transpose V)) in
  (map fst cols, transpose (map snd cols)).


End Jacobi.

(** ** IEEE-754 binary64 *)

Definition float_of_Z (z : Z) : float :=
  match z with
  | Z0 => PrimFloat.zero
  | _ => SF2Prim (binary_normalize prec emax z 0 false)
  end.

#[export] Instance binary64 : Scalar float := {
  of_Z := float_of_Z;
  fadd := PrimFloat.add;
  fsub := PrimFloat.sub;
  fmul := PrimFloat.mul;
  fdiv := PrimFloat.div;
  fsqrt := PrimFloat.sqrt;
  fabs := PrimFloat.abs;
  flt := PrimFloat.ltb;
  fle := PrimFloat.leb;
  feq := PrimFloat.eqb
}.

(** ** Exact arithmetic with the IEEE special values

    A finite value is a real number and the operations on finite values are
    the exact ones; [PInf], [NInf] and [NaN] arise and propagate as in
    IEEE-754 (division by zero, [log 0], the square root or logarithm of a
    negative number, [inf - inf], [0 * inf], [0 / 0]); a comparison with
    [NaN] is false. *)

Inductive xreal : Type :=
| Fin (r : R)
| PInf
| NInf
| NaN.

Definition Rltb (a b : R) : bool := if Rlt_dec a b then true else false.
Definition Rleb (a b : R) : bool := if Rle_dec a b then true else false.
Definition Reqb (a b : R) : bool := if Req_dec_T a b then true else false.

Definition Rsign (a : R) : comparison :=
  if Rlt_dec a 0 then Lt else if Rlt_dec 0 a then Gt else Eq.

(** [inf] with the sign of a nonzero real; [NaN] for zero. *)
Definition signed_inf (s : comparison) : xreal :=
  match s with
  | Gt => PInf
  | Lt => NInf
  | Eq => NaN
  end.

Definition xopp (x : xreal) : xreal :=
  match x with
  | Fin a => Fin (- a)
  | PInf => NInf
  | NInf => PInf
  | NaN => NaN
  end.

Definition xadd (x y : xreal) : xreal :=
  match x, y with
  | Fin a, Fin b => Fin (a + b)
  | NaN, _ | _, NaN => NaN
  | PInf, NInf | NInf, PInf => NaN
  | PInf, _ | _, PInf => PInf
  | NInf, _ | _, NInf => NInf
  end.

Definition xsub (x y : xreal) : xreal := xadd x (xopp y).

Definition xmul (x y : xreal) : xreal :=
  match x, y with
  | Fin a, Fin b => Fin (a * b)
  | NaN, _ | _, NaN => NaN
  | Fin a, PInf | PInf, Fin a => signed_inf (Rsign a)
  | Fin a, NInf | NInf, Fin a => signed_inf (CompOpp (Rsign a))
  | PInf, PInf | NInf, NInf => PInf
  | PInf, NInf | NInf, PInf => NInf
  end.

Definition xdiv (x y : xreal) : xreal :=
  match x, y with
  | Fin a, Fin b =>
      if Req_dec_T b 0 then signed_inf (Rsign a) else Fin (a / b)
  | NaN, _ | _, NaN => NaN
  | Fin _, PInf | Fin _, NInf => Fin 0
  | PInf, Fin b => if Rlt_dec b 0 then NInf else PInf
  | NInf, Fin b => if Rlt_dec b 0 then PInf else NInf
  | PInf, PInf | PInf, NInf | NInf, PInf | NInf, NInf => NaN
  end.

Definition xsqrt (x : xreal) : xreal :=
  match x with
  | Fin a => if Rlt_dec a 0 then NaN else Fin (sqrt a)
  | PInf => PInf
  | NInf => NaN
  | NaN => NaN
  end.

Definition xabs (x : xreal) : xreal :=
  match x with
  | Fin a => Fin (Rabs a)
  | PInf | NInf => PInf
  | NaN => NaN
  end.

Definition xlog (x : xreal) : xreal :=
  match x with
  | Fin a => if Rlt_dec a 0 then NaN
             else if Rlt_dec 0 a then Fin (ln a) else NInf
  | PInf => PInf
  | NInf => NaN
  | NaN => NaN
  end.

Definition xexp (x : xreal) : xreal :=
  match x with
  | Fin a => Fin (exp a)
  | PInf => PInf
  | NInf => Fin 0
  | NaN => NaN
  end.

Definition xlt (x y : xreal) : bool :=
  match x, y with
  | Fin a, Fin b => Rltb a b
  | NaN, _ | _, NaN => false
  | _, NInf | PInf, _ => false
  | NInf, _ | _, PInf => true
  end.

Definition xle (x y : xreal) : bool :=
  match x, y with
  | Fin a, Fin b => Rleb a b
  | NaN, _ | _, NaN => false
  | NInf, _ | _, PInf => true
  | _, NInf | PInf, _ => false
  end.

Definition xeq (x y : xreal) : bool :=
  match x, y with
  | Fin a, Fin b => Reqb a b
  | PInf, PInf | NInf, NInf => true
  | _, _ => false
  end.

#[export] Instance xreal_scalar : Scalar xreal := {
  of_Z := fun z => Fin (IZR z);
  fadd := xadd;
  fsub := xsub;
  fmul := xmul;
  fdiv := xdiv;
  fsqrt := xsqrt;
  fabs := xabs;
  flt := xlt;
  fle := xle;
  feq := xeq
}.

#[export] Instance xreal_elementary : Elementary xreal := {
  flog := xlog;
  fexp := xexp
}.

(** [x] is a positive real or [+inf]. *)
Definition pos_or_inf (x : xreal) : Prop :=
  match x with
  | Fin a => (0 < a)%R
  | PInf => True
  | NInf | NaN => False
  end.

Definition Rsum (l : list R) : R := fold_right Rplus 0%R l.

(** The real numbers [log((population_size + 1) / 2) - log(i + 1)]. *)
Definition wp_R (population_size : Z) : list R :=
  map (fun i => (ln (IZR (population_size + 1) / 2)
                 - ln (IZR (Z.of_nat i + 1)))%R)
      (seq 0 (Z.to_nat population_size)).

(** The raw weight of the individual of rank [i], as a real number. *)
Definition wp_at (population_size : Z) (i : nat) : R :=
  (ln (IZR (population_size + 1) / 2) - ln (IZR (Z.of_nat i + 1)))%R.

(** ** Concrete runs over binary64 *)

Module Run64.

Definition vec2 (a b : float) : list float := [a; b].
Definition diag2 (a b : float) : list (list float) :=
  [[a; zero]; [zero; b]].

(** The parameters of a run with [n_dim = 2], [population_size = 4],
    [mu = 2] and initial [sigma = 1]: the tolerances and
    [min_generations] as [init_strategy] sets them, the derived rates and
    weights to six decimals. *)
Definition params : Params float :=
  mkParams 4 2 (lit 1459790 (-6)) (lit 161946 (-6)) (lit 16589 (-6)) 1
           (lit 408969 (-6)) (lit 1408969 (-6)) (lit 634052 (-6))
           (lit 1254273 (-6))
           [lit 804163 (-6); lit 195837 (-6);
            lit (-550016) (-6); lit (-1417878) (-6)]
           (fmul (lit 1 (-12)) one) (lit 1 4) (lit 1 (-12)) (lit 1 14) 10.

(** Fitness values of a generation whose spread exceeds [tol_fun]. *)
Definition values : list float := [lit 3 (-10); lit 1 (-10)].

(** Step size shrunk to [1e-14], identity covariance, paths at zero. *)
Definition small_sigma : Memory float :=
  mkMemory (vec2 zero zero) (vec2 zero zero) (lit 1 (-14)) (vec2 one one)
           (diag2 one one) None None 50.

(** [sigma = 1e-15] and [C = 1e4 * I]: the standard deviation
    [sigma * sqrt(C[i][i])] is [1e-13], while [sigma * C[i][i]] is
    [1e-11]. *)
Definition small_std : Memory float :=
  mkMemory (vec2 zero zero) (vec2 zero zero) (lit 1 (-15)) (vec2 one one)
           (diag2 (lit 1 4) (lit 1 4)) None None 50.

(** A covariance with one zero and one unit variance. *)
Definition flat_coord : Memory float :=
  mkMemory (vec2 zero zero) (vec2 zero zero) one (vec2 zero zero)
           (diag2 zero one) None None 0.

(** The singular covariance [[1, 1], [1, 1]] with its decomposition in
    the cache: eigenvalues [0] and [2]. *)
Definition flat_axis : Memory float :=
  mkMemory (vec2 zero zero) (vec2 zero zero) one (vec2 zero zero)
           [[one; one]; [one; one]]
           (Some [zero; lit 14142136 (-7)])
           (Some [[lit (-7071068) (-7); lit 7071068 (-7)];
                  [lit 7071068 (-7); lit 7071068 (-7)]])
           0.



Definition terminate (memory : Memory float) : result (bool * list string) :=
  check_termination jacobi_eigh values params memory.

Definition fired (memory : Memory float) : result (option stop) :=
  stopping_condition jacobi_eigh values params memory.

End Run64.

(** ** A concrete state over the extended reals *)

Module RunX.

Definition identity2 : list (list xreal) := [[Fin 1; Fin 0]; [Fin 0; Fin 1]].

(** A state of dimension two with the decomposition of [C = I] in the
    cache, and parameters for a population of two. *)
Definition params : Params xreal :=
  mkParams 2 1 (Fin 1) (Fin (1 / 4)) (Fin (1 / 4)) 1 (Fin (1 / 2)) (Fin 1)
           (Fin (1 / 2)) (Fin 1) [Fin 1; Fin (- 1)]
           (Fin 0) (Fin 10000) (Fin 0) (Fin 1) 10.

Definition state : Memory xreal :=
  mkMemory [Fin 0; Fin 0] [Fin 0; Fin 0] (Fin 1) [Fin 0; Fin 0]
           identity2 (Some [Fin 1; Fin 1]) (Some identity2) 0.

Definition candidates : list (list xreal) := [[Fin 1; Fin 0]; [Fin 0; Fin 1]].
Definition fitness : list xreal := [Fin 2; Fin 1].

(** An eigensolver that is never asked: the cache is filled. *)
Definition no_eigh (M : list (list xreal)) : list xreal * list (list xreal) :=
  ([], []).

End RunX.

(** The order of [sort_rows] on two rows: [b] is not strictly before [a]. *)
Definition not_after (a b : xreal * list xreal) : Prop :=
  key_before (fst b) (fst a) = false.


(** * build_docs.py: the version of the package *)

Module BuildDocs.
Local Open Scope string_scope.

(** What [get_version] and [gen_doc] can raise: [open] on a missing file,
    and the [raise RuntimeError] of line 21. *)
Inductive error : Type :=
| FileNotFoundError (path : string)
| RuntimeError (msg : string).

(** The files of the working directory, as the text [read()] returns. *)
Definition files : Type := string -> option string.

Definition single_quote : ascii := ascii_of_nat 39.
Definition double_quote : ascii := ascii_of_nat 34.
Definition newline : ascii := ascii_of_nat 10.

(** The character class of the pattern, and its complement. *)
Definition is_quote (c : ascii) : bool :=
  Ascii.eqb c single_quote || Ascii.eqb c double_quote.

(** [s] without the literal [lit] at its start, if it starts with it. *)
Fixpoint after_literal (lit s : string) : option string :=
  match lit, s with
  | EmptyString, _ => Some s
  | String a lit', String b s' =>
      if Ascii.eqb a b then after_literal lit' s' else None
  | String _ _, EmptyString => None
  end.

(** The greedy star over the complement class: the longest run of
    characters other than quotes, and what follows it. *)
Fixpoint span_unquoted (s : string) : string * string :=
  match s with
  | EmptyString => (EmptyString, EmptyString)
  | String c s' =>
      if is_quote c then (EmptyString, s)
      else let (v, rest) := span_unquoted s' in (String c v, rest)
  end.

(** A match of the pattern after its anchor, at the start of [s]: the
    literal, a quote, the group, a quote.  The group is the longest run:
    a shorter one is followed by a character that is no quote. *)
Definition match_here (s : string) : option string :=
  match after_literal "__version__ = " s with
  | Some (String q s') =>
      if is_quote q then
        match span_unquoted s' with
        | (v, String _ _) => Some v
        | (_, EmptyString) => None
        end
      else None
  | _ => None
  end.

(** [re.search(VSRE, s, re.M)]: the leftmost match; with [re.M] the anchor
    holds at the start of the text and after every newline.  The result is
    [group(1)]. *)
Fixpoint search (anchored : bool) (s : string) : option string :=
  match (if anchored then match_here s else None) with
  | Some v => Some v
  | None =>
      match s with
      | EmptyString => None
      | String c s' => search (Ascii.eqb c newline) s'
      end
  end.

Definition get_version (VERSIONFILE : string) (fs : files)
  : string + error :=
  match fs VERSIONFILE with
  | None => inr (FileNotFoundError VERSIONFILE)
  | Some verstrline =>
      match search true verstrline with
      | Some verstr => inl verstr
      | None =>
          inr (RuntimeError
                 ("Unable to find version string in " ++ VERSIONFILE ++ "."))
      end
  end.

(** [gen_doc]: the footer text given to [pdoc.render.configure]; the
    arguments are evaluated before the call. *)
Definition footer_text (VERSIONFILE : string) (fs : files)
  : string + error :=
  match get_version VERSIONFILE fs with
  | inl v => inl ("evosax v" ++ v)
  | inr e => inr e
  end.

(** A text without quote characters. *)
Definition unquoted (v : string) : Prop :=
  forall c, In c (list_ascii_of_string v) -> is_quote c = false.

(** The lines [lines], each closed by a newline. *)
Definition header (lines : list string) : string :=
  fold_right (fun l acc => l ++ String newline acc) EmptyString lines.

(** A version file: two comment lines, then the version in single quotes. *)
Definition version_file : string :=
  header ["# evosax"; "# release"]
  ++ "__version__ = " ++ String single_quote ("0.1.0" ++ String single_quote
                                                (String newline EmptyString)).

Definition one_file (path text : string) : files :=
  fun p => if String.eqb p path then Some text else None.

End BuildDocs.

(** * Properties *)

(** ** Lists *)

Lemma nth_error_map2 {A B C : Type} (f : A -> B -> C) (u : list A)
    (v : list B) (i : nat) :
  nth_error (map2 f u v) i =
  match nth_error u i, nth_error v i with
  | Some a, Some b => Some (f a b)
  | _, _ => None
  end.
Proof.
  revert v i; induction u as [|a u IH]; intros v i.
  - destruct i; reflexivity.
  - destruct v as [|b v].
    + destruct i; simpl; [reflexivity|]. destruct (nth_error u i); reflexivity.
    + destruct i; simpl; [reflexivity|]. apply IH.
Qed.

Lemma existsb_nth_error {A : Type} (p : A -> bool) (l : list A) :
  existsb p l = true <-> exists i a, nth_error l i = Some a /\ p a = true.
Proof.
  rewrite existsb_exists. split.
  - intros (a & Hin & Hp). apply In_nth_error in Hin as [i Hi]. eauto.
  - intros (i & a & Hi & Hp). exists a. eauto using nth_error_In.
Qed.

Lemma forallb_id_map {A : Type} (p : A -> bool) (l : list A) :
  forallb (fun b => b) (map p l) = true <-> Forall (fun a => p a = true) l.
Proof.
  induction l as [|a l IH]; simpl.
  - split; auto.
  - rewrite andb_true_iff, IH. split.
    + intros [Ha Hl]. constructor; assumption.
    + intros Hl. inversion Hl; subst. split; assumption.
Qed.

(** ** What holds for every element type *)

Section Properties.
Context {F : Type} `{Scalar F} `{Elementary F}.
Variable eigh : list (list F) -> list F * list (list F).
Variable key : Type.
Variable normal : key -> nat -> nat -> list (list F).
Local Open Scope num_scope.

Lemma init_strategy_returns (mean_init : list F) (sigma0 : F)
    (population_size mu0 : Z) :
  mean_init <> [] ->
  exists p m,
    init_strategy mean_init sigma0 population_size mu0 = Ok (p, m)
    /\ sigma m = sigma0 /\ pop_size p = population_size
    /\ B m = None /\ D m = None.
Proof.
  intros Hne. unfold init_strategy, chi_n_of.
  destruct mean_init as [|a l]; [congruence|].
  replace (Z.of_nat (length (a :: l)) =? 0)%Z with false.
  - simpl. eexists. eexists. repeat split.
  - symmetry. apply Z.eqb_neq. simpl length. lia.
Qed.

Lemma init_strategy_empty_mean (sigma0 : F) (population_size mu0 : Z) :
  init_strategy [] sigma0 population_size mu0 = Raise ZeroDivisionError.
Proof. reflexivity. Qed.

(** C3.  [init_strategy] does not validate its arguments: called with a
    negative [sigma], with [population_size = 0], or with a mean of
    dimension one, it returns the pair [(params, memory)], and the
    [sigma] it returns is the negative one it was given.  The validation
    routine [check_initialization] is never called, and a call of it stops
    at its first line with a [NameError]. *)
Theorem init_strategy_does_not_validate :
  (exists p m, init_strategy [zero; zero] (of_Z (-1)) 4 2 = Ok (p, m)
               /\ sigma m = of_Z (-1))
  /\ (exists p m, init_strategy [zero; zero] one 0 0 = Ok (p, m)
                  /\ pop_size p = 0%Z)
  /\ (exists p m, init_strategy [zero] one 4 2 = Ok (p, m))
  /\ check_initialization = Raise (NameError "population_size").
Proof.
  split; [|split; [|split]].
  - destruct (@init_strategy_returns [zero; zero] (of_Z (-1)) 4 2)
      as (p & m & Hi & Hs & _); [discriminate|]. eauto.
  - destruct (@init_strategy_returns [zero; zero] one 0 0)
      as (p & m & Hi & _ & Hp & _); [discriminate|]. eauto.
  - destruct (@init_strategy_returns [zero] one 4 2)
      as (p & m & Hi & _); [discriminate|]. eauto.
  - reflexivity.
Qed.

(** C9.  [ask_cma_strategy] assigns the keys [C], [B] and [D] of [memory]
    and no other: in the state it returns, [mean], [sigma], [p_sigma],
    [p_c] and [generation] are those of the state it was given. *)
Theorem ask_changes_only_the_decomposition :
  forall (rng : key) (memory : Memory F) (params : Params F),
    let memory' := snd (ask_cma_strategy eigh normal rng memory params) in
    mean memory' = mean memory
    /\ sigma memory' = sigma memory
    /\ p_sigma memory' = p_sigma memory
    /\ p_c memory' = p_c memory
    /\ generation memory' = generation memory.
Proof.
  intros rng memory params. unfold ask_cma_strategy.
  destruct (eigen_decomposition eigh (C memory) (B memory) (D memory))
    as [[C' B'] D'].
  simpl. repeat split.
Qed.

Lemma tell_clears_the_cache (x : list (list F)) (fitness : list F) (mu0 : Z)
    (params : Params F) (memory : Memory F) :
  let memory' := tell_cma_strategy eigh x fitness mu0 params memory in
  B memory' = None /\ D memory' = None
  /\ generation memory' = (generation memory + 1)%Z.
Proof.
  unfold tell_cma_strategy.
  destruct (update_mean _ _ _ _) as [[y_k y_w] mean'].
  unfold update_p_sigma. simpl.
  destruct (eigen_decomposition eigh (C memory) (B memory) (D memory))
    as [[C' B'] D'].
  unfold update_p_c. cbn [B D generation].
  repeat split.
Qed.

Lemma ask_fills_the_cache (rng : key) (memory : Memory F)
    (params : Params F) :
  let memory' := snd (ask_cma_strategy eigh normal rng memory params) in
  exists b d,
    B memory' = Some b /\ D memory' = Some d
    /\ eigen_decomposition eigh (C memory) (B memory) (D memory)
       = (C memory', b, d).
Proof.
  unfold ask_cma_strategy.
  destruct (eigen_decomposition eigh (C memory) (B memory) (D memory))
    as [[C' B'] D'].
  simpl. eauto.
Qed.

(** C5.  The cache follows [C]: the states returned by [init_strategy] and
    by [tell_cma_strategy], which assign [C], have [B] and [D] absent.
    [ask_cma_strategy] is the eigendecomposition that fills the cache again:
    the state it returns holds the [C], [B] and [D] that
    [eigen_decomposition] returned together for the old state, with [B] and
    [D] present. *)
Theorem cache_after_each_operation :
  (forall mean_init sigma0 population_size mu0 p m,
      init_strategy mean_init sigma0 population_size mu0 = Ok (p, m) ->
      B m = None /\ D m = None)
  /\ (forall x fitness mu0 params memory,
         let memory' := tell_cma_strategy eigh x fitness mu0 params memory in
         B memory' = None /\ D memory' = None)
  /\ (forall (rng : key) memory params,
         let memory' := snd (ask_cma_strategy eigh normal rng memory params) in
         exists b d,
           B memory' = Some b /\ D memory' = Some d
           /\ eigen_decomposition eigh (C memory) (B memory) (D memory)
              = (C memory', b, d)).
Proof.
  split; [|split].
  - intros mean_init sigma0 population_size mu0 p m Hinit.
    destruct mean_init as [|a l].
    + rewrite init_strategy_empty_mean in Hinit. discriminate.
    + destruct (@init_strategy_returns (a :: l) sigma0 population_size mu0)
        as (p' & m' & Hi & _ & _ & HB & HD); [discriminate|].
      rewrite Hi in Hinit. injection Hinit as <- <-. auto.
  - intros x fitness mu0 params memory.
    destruct (tell_clears_the_cache x fitness mu0 params memory)
      as (HB & HD & _).
    auto.
  - intros rng memory params. apply ask_fills_the_cache.
Qed.

(** The control flow of [check_termination], one condition at a time. *)
Lemma stopping_condition_unfold (values : list F) (params : Params F)
    (memory : Memory F) :
  stopping_condition eigh values params memory =
  let dC := diagonal (C memory) in
  let BD := eigen_decomposition eigh (C memory) (B memory) (D memory) in
  c1 <- no_progress values params memory ;;
  if c1 then Ok (Some NoProgress) else
  c2 <- variance_too_small dC params memory ;;
  if c2 then Ok (Some VarianceTooSmall) else
  c3 <- sigma_exploded (snd BD) params memory ;;
  if c3 then Ok (Some SigmaExploded) else
  if no_effect_coord dC memory then Ok (Some NoEffectCoord) else
  c5 <- no_effect_axis (snd (fst BD)) (snd BD) memory ;;
  if c5 then Ok (Some NoEffectAxis) else
  c6 <- condition_exploded (snd BD) params ;;
  if c6 then Ok (Some ConditionExploded) else
  Ok None.
Proof.
  unfold stopping_condition.
  destruct (eigen_decomposition eigh (C memory) (B memory) (D memory))
    as [[C' B'] D'].
  reflexivity.
Qed.

Lemma variance_too_small_raises (dC : list F) (params : Params F)
    (memory : Memory F) :
  Forall (fun c => (sigma memory * c <? tol_x params) = true) dC ->
  variance_too_small dC params memory = Raise (NameError "np").
Proof.
  intros Hall. unfold variance_too_small, jnp_all.
  apply forallb_id_map in Hall. rewrite Hall. reflexivity.
Qed.

Lemma variance_too_small_never_true (dC : list F) (params : Params F)
    (memory : Memory F) :
  variance_too_small dC params memory <> Ok true.
Proof.
  unfold variance_too_small.
  destruct (jnp_all _); [|discriminate].
  simpl. discriminate.
Qed.

(** C10.  When the first condition does not fire and
    [sigma * C[i][i] < tol_x] holds in every coordinate,
    [check_termination] returns nothing: the name [np] is unbound and the
    call ends in a [NameError]. *)
Theorem check_termination_unbound_np :
  forall (values : list F) (params : Params F) (memory : Memory F),
    no_progress values params memory = Ok false ->
    Forall (fun c => (sigma memory * c <? tol_x params) = true)
           (diagonal (C memory)) ->
    check_termination eigh values params memory = Raise (NameError "np").
Proof.
  intros values params memory Hfirst Hall.
  unfold check_termination.
  rewrite stopping_condition_unfold. cbv zeta.
  rewrite Hfirst. simpl.
  rewrite (variance_too_small_raises _ _ Hall).
  reflexivity.
Qed.

Lemma no_effect_coord_spec (dC : list F) (memory : Memory F) :
  no_effect_coord dC memory = true <->
  exists i m c,
    nth_error (mean memory) i = Some m /\ nth_error dC i = Some c
    /\ (m =? m + lit 2 (-1) * sigma memory * fsqrt c) = true.
Proof.
  unfold no_effect_coord, jnp_any, vadd, vscale.
  rewrite existsb_nth_error. split.
  - intros (i & b & Hi & Hb). subst b.
    rewrite nth_error_map2 in Hi.
    destruct (nth_error (mean memory) i) as [m|] eqn:Hm; [|discriminate].
    rewrite nth_error_map2, Hm, !nth_error_map in Hi.
    destruct (nth_error dC i) as [c|] eqn:Hc; [|discriminate].
    simpl in Hi. injection Hi as Hi. eauto 6.
  - intros (i & m & c & Hm & Hc & Heq).
    exists i, true. split; [|reflexivity].
    rewrite nth_error_map2, Hm, nth_error_map2, Hm, !nth_error_map, Hc.
    simpl. congruence.
Qed.

(** C8.  The fourth condition is an [any]: it fires when the three before
    it did not and at least one coordinate of the mean is unchanged by the
    addition of [0.2 * sigma * sqrt(C[i][i])]. *)
Theorem no_effect_coord_fires :
  forall (values : list F) (params : Params F) (memory : Memory F),
    let dC := diagonal (C memory) in
    let D' :=
      snd (eigen_decomposition eigh (C memory) (B memory) (D memory)) in
    stopping_condition eigh values params memory = Ok (Some NoEffectCoord)
    <->
    (no_progress values params memory = Ok false
     /\ variance_too_small dC params memory = Ok false
     /\ sigma_exploded D' params memory = Ok false
     /\ exists i m c,
          nth_error (mean memory) i = Some m /\ nth_error dC i = Some c
          /\ (m =? m + lit 2 (-1) * sigma memory * fsqrt c) = true).
Proof.
  intros values params memory dC D'.
  rewrite <- no_effect_coord_spec, stopping_condition_unfold.
  cbv zeta. fold dC. fold D'.
  destruct (no_progress values params memory) as [[|]|e1]; simpl;
    try (split; [discriminate | intros (Hc & _); discriminate]).
  destruct (variance_too_small dC params memory) as [[|]|e2]; simpl;
    try (split; [discriminate | intros (_ & Hc & _); discriminate]).
  destruct (sigma_exploded D' params memory) as [[|]|e3]; simpl;
    try (split; [discriminate | intros (_ & _ & Hc & _); discriminate]).
  destruct (no_effect_coord dC memory) eqn:H4.
  - split; auto.
  - split; [|intros (_ & _ & _ & Hc); discriminate].
    destruct (no_effect_axis _ _ memory) as [[|]|e5]; simpl;
      try discriminate.
    destruct (condition_exploded _ params) as [[|]|e6]; simpl; discriminate.
Qed.

Lemma message_collision (s s' : stop) :
  message s = message s' ->
  s = s' \/ (s = NoEffectCoord /\ s' = NoEffectAxis)
  \/ (s = NoEffectAxis /\ s' = NoEffectCoord).
Proof.
  destruct s, s'; simpl; intros Heq;
    solve [ left; reflexivity
          | right; left; split; reflexivity
          | right; right; split; reflexivity
          | discriminate Heq ].
Qed.

(** C2.  [check_termination] returns a boolean and nothing else; the
    condition that fired is only printed, as the one line written before
    [True] is returned.  The lines of the first, second, third and sixth
    condition differ from one another and from the line of the fourth and
    fifth. *)
Theorem check_termination_reports :
  forall (values : list F) (params : Params F) (memory : Memory F)
         (b : bool) (out : list string),
    check_termination eigh values params memory = Ok (b, out) ->
    ((b = true
      /\ exists s, stopping_condition eigh values params memory = Ok (Some s)
                   /\ out = [message s])
     \/ (b = false
         /\ stopping_condition eigh values params memory = Ok None
         /\ out = []))
    /\ (forall s s' : stop,
           message s = message s' ->
           s = s' \/ (s = NoEffectCoord /\ s' = NoEffectAxis)
           \/ (s = NoEffectAxis /\ s' = NoEffectCoord)).
Proof.
  intros values params memory b out Hrun.
  split; [|apply message_collision].
  unfold check_termination in Hrun.
  destruct (stopping_condition eigh values params memory) as [[s|]|e];
    simpl in Hrun; try discriminate;
    injection Hrun as <- <-.
  - left. split; [reflexivity|]. exists s. split; reflexivity.
  - right. repeat split.
Qed.

End Properties.

(** ** Runs over binary64 *)

Section OnBinary64.
Import Run64.

Lemma small_sigma_is_converged :
  spec_variance_too_small (diagonal (C small_sigma)) params small_sigma
  = true.
Proof. vm_compute. reflexivity. Qed.

Lemma small_std_is_converged :
  spec_variance_too_small (diagonal (C small_std)) params small_std = true.
Proof. vm_compute. reflexivity. Qed.

(** C1.  Two states in which the standard deviation
    [sigma * sqrt(C[i][i])] and [sigma * p_c] are below [tol_x] in every
    coordinate.  In the first, [sigma * C[i][i]] is below [tol_x] as well,
    and the call ends in [NameError]; in the second it is not, and the call
    returns [False] without a line printed.  In neither does the second
    condition report convergence. *)
Theorem variance_too_small_does_not_report :
  (spec_variance_too_small (diagonal (C small_sigma)) params small_sigma
   = true
   /\ terminate small_sigma = Raise (NameError "np"))
  /\ (spec_variance_too_small (diagonal (C small_std)) params small_std
      = true
      /\ terminate small_std = Ok (false, [])).
Proof.
  split; split.
  - exact small_sigma_is_converged.
  - vm_compute. reflexivity.
  - exact small_std_is_converged.
  - vm_compute. reflexivity.
Qed.

(** Witness of C10: the state [small_sigma]. *)
Lemma check_termination_unbound_np_witness :
  terminate small_sigma = Raise (NameError "np").
Proof.
  apply (check_termination_unbound_np jacobi_eigh values params small_sigma).
  - vm_compute. reflexivity.
  - repeat constructor; vm_compute; reflexivity.
Defined.

(** Counterexample to C2: the fourth condition fires in one state and the
    fifth in another, and the two calls return the same value and print the
    same line. *)
Lemma check_termination_same_report :
  fired flat_coord = Ok (Some NoEffectCoord)
  /\ fired flat_axis = Ok (Some NoEffectAxis)
  /\ terminate flat_coord
     = Ok (true, ["TERMINATE ----> No effect when adding std to mean"%string])
  /\ terminate flat_axis = terminate flat_coord.
Proof. repeat split; vm_compute; reflexivity. Qed.

(** Witness of C2: the run on [flat_coord]. *)
Lemma check_termination_reports_witness :
  ((true = true
    /\ exists s, fired flat_coord = Ok (Some s)
                 /\ [message NoEffectCoord] = [message s])
   \/ (true = false
       /\ fired flat_coord = Ok None
       /\ [message NoEffectCoord] = []))
  /\ (forall s s' : stop,
         message s = message s' ->
         s = s' \/ (s = NoEffectCoord /\ s' = NoEffectAxis)
         \/ (s = NoEffectAxis /\ s' = NoEffectCoord)).
Proof.
  apply (check_termination_reports jacobi_eigh values params flat_coord).
  vm_compute. reflexivity.
Defined.

(** Counterexample to C4: the symmetric matrix [diag(0, 1)] with an empty
    cache.  Its eigenvalue [0] is not below [0], so it is not replaced, and
    [D] holds [sqrt 0 = 0], which is below [sqrt 1e-20]. *)
Lemma eigen_decomposition_zero_eigenvalue :
  eigen_decomposition jacobi_eigh (diag2 zero one) None None
  = (diag2 zero one, diag2 one one, vec2 zero one)
  /\ flt (zero : float) (fsqrt (lit 1 (-20))) = true.
Proof. split; vm_compute; reflexivity. Qed.

(** Counterexample to C8: in [flat_coord] the fourth condition fires, and
    the addition leaves the first coordinate of the mean unchanged but not
    the second. *)
Lemma no_effect_coord_fires_on_one_coordinate :
  fired flat_coord = Ok (Some NoEffectCoord)
  /\ map2 feq (mean flat_coord)
          (vadd (mean flat_coord)
                (vscale (fmul (lit 2 (-1)) (sigma flat_coord))
                        (map fsqrt (diagonal (C flat_coord)))))
     = [true; false].
Proof. split; vm_compute; reflexivity. Qed.

End OnBinary64.

(** ** How the operations compose *)

Section Composition.
Context {F : Type} `{Scalar F} `{Elementary F}.
Variable eigh : list (list F) -> list F * list (list F).
Variable key : Type.
Variable normal : key -> nat -> nat -> list (list F).
Local Open Scope num_scope.

(** The cache is used only when both [B] and [D] are present: with either
    one missing the result is that of an empty cache, and the result of a
    call, given back as cache, is returned as it is. *)
Theorem eigen_decomposition_cache :
  forall (C0 : list (list F)) (b : list (list F)) (d : list F),
    eigen_decomposition eigh C0 (Some b) None
    = eigen_decomposition eigh C0 None None
    /\ eigen_decomposition eigh C0 None (Some d)
       = eigen_decomposition eigh C0 None None
    /\ (forall B0 D0,
           let '(C1, B1, D1) := eigen_decomposition eigh C0 B0 D0 in
           eigen_decomposition eigh C1 (Some B1) (Some D1) = (C1, B1, D1)).
Proof.
  intros C0 b d. repeat split.
  intros B0 D0.
  destruct (eigen_decomposition eigh C0 B0 D0) as [[C1 B1] D1].
  reflexivity.
Qed.

(** A second [ask] leaves the state that the first one returned as it is,
    whatever the random key and the parameters. *)
Theorem ask_twice_keeps_the_state :
  forall (rng rng' : key) (memory : Memory F) (params params' : Params F),
    let memory' := snd (ask_cma_strategy eigh normal rng memory params) in
    snd (ask_cma_strategy eigh normal rng' memory' params') = memory'.
Proof.
  intros rng rng' memory params params'. unfold ask_cma_strategy.
  destruct (eigen_decomposition eigh (C memory) (B memory) (D memory))
    as [[C1 B1] D1].
  reflexivity.
Qed.

Lemma tell_with_cache (eigh' : list (list F) -> list F * list (list F))
    (x : list (list F)) (fitness : list F) (mu0 : Z) (params : Params F)
    (memory : Memory F) (b : list (list F)) (d : list F) :
  B memory = Some b -> D memory = Some d ->
  tell_cma_strategy eigh x fitness mu0 params memory
  = tell_cma_strategy eigh' x fitness mu0 params memory.
Proof.
  intros HB HD. unfold tell_cma_strategy.
  destruct (update_mean _ _ _ _) as [[y_k y_w] mean'].
  unfold update_p_sigma, eigen_decomposition. cbn [B D C].
  rewrite HB, HD. reflexivity.
Qed.

(** [tell] on the state that [ask] returned does not decompose [C] again:
    its result is the same with any other eigensolver in place of
    [jnp.linalg.eigh]. *)
Theorem tell_after_ask_reuses_the_decomposition :
  forall (eigh' : list (list F) -> list F * list (list F))
         (rng : key) (memory : Memory F) (params : Params F)
         (x : list (list F)) (fitness : list F) (mu0 : Z),
    let memory' := snd (ask_cma_strategy eigh normal rng memory params) in
    tell_cma_strategy eigh x fitness mu0 params memory'
    = tell_cma_strategy eigh' x fitness mu0 params memory'.
Proof.
  intros eigh' rng memory params x fitness mu0 memory'.
  destruct (ask_fills_the_cache eigh normal rng memory params)
    as (b & d & HB & HD & _).
  apply (tell_with_cache eigh' x fitness mu0 params memory' HB HD).
Qed.

(** [tell] adds one to [generation], whatever the population and the
    fitness values. *)
Theorem tell_advances_generation :
  forall (x : list (list F)) (fitness : list F) (mu0 : Z)
         (params : Params F) (memory : Memory F),
    generation (tell_cma_strategy eigh x fitness mu0 params memory)
    = (generation memory + 1)%Z.
Proof.
  intros x fitness mu0 params memory.
  apply (tell_clears_the_cache eigh x fitness mu0 params memory).
Qed.

End Composition.

(** ** Edge behaviour of [check_termination] *)

Section TerminationEdges.
Context {F : Type} `{Scalar F}.
Variable eigh : list (list F) -> list F * list (list F).
Local Open Scope num_scope.

(** The branch of the second condition is dead code: no call runs it, and
    no call prints its line. *)
Theorem variance_too_small_is_unreachable :
  forall (values : list F) (params : Params F) (memory : Memory F),
    stopping_condition eigh values params memory
    <> Ok (Some VarianceTooSmall)
    /\ (forall b out,
           check_termination eigh values params memory = Ok (b, out) ->
           ~ In (message VarianceTooSmall) out).
Proof.
  intros values params memory.
  assert (Hnever : stopping_condition eigh values params memory
                   <> Ok (Some VarianceTooSmall)).
  { rewrite stopping_condition_unfold. cbv zeta.
    destruct (no_progress values params memory) as [[|]|e1]; simpl;
      try discriminate.
    pose proof (@variance_too_small_never_true F _
                  (diagonal (C memory)) params memory) as Hv.
    destruct (variance_too_small _ params memory) as [[|]|e2]; simpl;
      try discriminate; [congruence|].
    destruct (sigma_exploded _ params memory) as [[|]|e3]; simpl;
      try discriminate.
    destruct (no_effect_coord _ memory); [discriminate|].
    destruct (no_effect_axis _ _ memory) as [[|]|e5]; simpl;
      try discriminate.
    destruct (condition_exploded _ params) as [[|]|e6]; simpl;
      discriminate. }
  split; [exact Hnever|].
  intros b out Hrun Hin. unfold check_termination in Hrun.
  destruct (stopping_condition eigh values params memory) as [[s|]|e];
    simpl in Hrun; try discriminate; injection Hrun as <- <-.
  - destruct Hin as [Heq|[]].
    destruct s; simpl in Heq; try discriminate. congruence.
  - destruct Hin.
Qed.

(** Past [min_generations], an empty array of fitness values has no
    maximum: the call raises [ValueError]. *)
Theorem check_termination_without_values :
  forall (params : Params F) (memory : Memory F),
    (min_generations params < generation memory)%Z ->
    check_termination eigh [] params memory = Raise ValueError.
Proof.
  intros params memory Hgen. unfold check_termination.
  rewrite stopping_condition_unfold. cbv zeta. unfold no_progress.
  replace (min_generations params <? generation memory)%Z with true
    by (symmetry; apply Z.ltb_lt; exact Hgen).
  reflexivity.
Qed.

(** Up to generation [min_generations] the fitness values are not read:
    the result is the same for any two arrays of values. *)
Theorem check_termination_ignores_early_values :
  forall (values values' : list F) (params : Params F) (memory : Memory F),
    (generation memory <= min_generations params)%Z ->
    check_termination eigh values params memory
    = check_termination eigh values' params memory.
Proof.
  intros values values' params memory Hgen. unfold check_termination.
  rewrite !stopping_condition_unfold. cbv zeta. unfold no_progress.
  replace (min_generations params <? generation memory)%Z with false
    by (symmetry; apply Z.ltb_ge; exact Hgen).
  reflexivity.
Qed.

End TerminationEdges.

Section TerminationEdges64.
Import Run64.

Lemma check_termination_without_values_witness :
  check_termination jacobi_eigh [] params small_std = Raise ValueError.
Proof.
  apply (check_termination_without_values jacobi_eigh params small_std).
  vm_compute. reflexivity.
Defined.

Lemma check_termination_ignores_early_values_witness :
  check_termination jacobi_eigh values params flat_coord
  = check_termination jacobi_eigh [] params flat_coord.
Proof.
  apply (check_termination_ignores_early_values
           jacobi_eigh values [] params flat_coord).
  vm_compute. discriminate.
Defined.

End TerminationEdges64.

Lemma forallb_nth_error {A : Type} (p : A -> bool) (l : list A) :
  forallb p l = true <-> forall i a, nth_error l i = Some a -> p a = true.
Proof.
  rewrite forallb_forall. split.
  - intros Hall i a Hi. apply Hall. eauto using nth_error_In.
  - intros Hall a Hin. apply In_nth_error in Hin as [i Hi]. eauto.
Qed.

Section NoEffectAxis.
Context {F : Type} `{Scalar F}.
Variable eigh : list (list F) -> list F * list (list F).
Local Open Scope num_scope.

Lemma no_effect_axis_spec (B0 : list (list F)) (D0 : list F)
    (memory : Memory F) :
  no_effect_axis B0 D0 memory = Ok true <->
  exists d0 b0,
    index0 D0 = Ok d0 /\ column0 B0 = Ok b0
    /\ forall i m b,
         nth_error (mean memory) i = Some m -> nth_error b0 i = Some b ->
         (m =? m + lit 1 (-1) * sigma memory * d0 * b) = true.
Proof.
  unfold no_effect_axis.
  destruct (index0 D0) as [d0|e]; simpl.
  2: { split; [discriminate|]. intros (d & b & Hd & _). discriminate. }
  destruct (column0 B0) as [b0|e]; simpl.
  2: { split; [discriminate|]. intros (d & b & _ & Hb & _). discriminate. }
  unfold jnp_all, vadd, vscale. split.
  - intros Hall. injection Hall as Hall. exists d0, b0.
    split; [reflexivity|]. split; [reflexivity|].
    intros i m b Hm Hb.
    rewrite forallb_nth_error in Hall. apply (Hall i).
    rewrite nth_error_map2, Hm, nth_error_map2, Hm, nth_error_map, Hb.
    reflexivity.
  - intros (d & b & Hd & Hb & Hall).
    injection Hd as <-. injection Hb as <-. f_equal.
    apply forallb_nth_error. intros i a Hi.
    rewrite nth_error_map2 in Hi.
    destruct (nth_error (mean memory) i) as [m|] eqn:Hm; [|discriminate].
    rewrite nth_error_map2, Hm, nth_error_map in Hi.
    destruct (nth_error b0 i) as [x|] eqn:Hx; [|discriminate].
    simpl in Hi. injection Hi as <-. eauto.
Qed.

(** The fifth condition is an [all]: it fires when the four before it did
    not and every coordinate of the mean is unchanged by the addition of
    [0.1 * sigma * D[0] * B[:, 0]], the axis of the smallest eigenvalue
    ([eigh] returns the eigenvalues in ascending order). *)
Theorem no_effect_axis_fires :
  forall (values : list F) (params : Params F) (memory : Memory F),
    let dC := diagonal (C memory) in
    let BD := eigen_decomposition eigh (C memory) (B memory) (D memory) in
    stopping_condition eigh values params memory = Ok (Some NoEffectAxis)
    <->
    (no_progress values params memory = Ok false
     /\ variance_too_small dC params memory = Ok false
     /\ sigma_exploded (snd BD) params memory = Ok false
     /\ no_effect_coord dC memory = false
     /\ exists d0 b0,
          index0 (snd BD) = Ok d0 /\ column0 (snd (fst BD)) = Ok b0
          /\ forall i m b,
               nth_error (mean memory) i = Some m ->
               nth_error b0 i = Some b ->
               (m =? m + lit 1 (-1) * sigma memory * d0 * b) = true).
Proof.
  intros values params memory dC BD.
  rewrite <- no_effect_axis_spec, stopping_condition_unfold.
  cbv zeta. fold dC. fold BD.
  destruct (no_progress values params memory) as [[|]|e1]; simpl;
    try (split; [discriminate | intros (Hc & _); discriminate]).
  destruct (variance_too_small dC params memory) as [[|]|e2]; simpl;
    try (split; [discriminate | intros (_ & Hc & _); discriminate]).
  destruct (sigma_exploded (snd BD) params memory) as [[|]|e3]; simpl;
    try (split; [discriminate | intros (_ & _ & Hc & _); discriminate]).
  destruct (no_effect_coord dC memory) eqn:H4;
    try (split; [discriminate | intros (_ & _ & _ & Hc & _); discriminate]).
  destruct (no_effect_axis (snd (fst BD)) (snd BD) memory) as [[|]|e5];
    simpl.
  - split; auto 6.
  - split; [|intros (_ & _ & _ & _ & Hc); discriminate].
    destruct (condition_exploded _ params) as [[|]|e6]; simpl; discriminate.
  - split; [discriminate|intros (_ & _ & _ & _ & Hc); discriminate].
Qed.

End NoEffectAxis.

(** ** Shapes and the initial state *)

Lemma length_map2 {A B C : Type} (f : A -> B -> C) (u : list A) (v : list B) :
  length (map2 f u v) = Nat.min (length u) (length v).
Proof.
  revert v; induction u as [|a u IH]; intros [|b v]; simpl; auto.
Qed.

Section Shapes.
Context {F : Type} `{Scalar F} `{Elementary F}.
Variable eigh : list (list F) -> list F * list (list F).
Variable key : Type.
Variable normal : key -> nat -> nat -> list (list F).
Local Open Scope num_scope.

Lemma transpose_cols_shape (n : nat) (M : list (list F)) :
  length (transpose_cols n M) = n
  /\ Forall (fun r => length r = length M) (transpose_cols n M).
Proof.
  revert M; induction n as [|n IH]; intros M; simpl.
  - split; [reflexivity|constructor].
  - destruct (IH (map (fun r => tl r) M)) as [Hlen Hrows].
    rewrite length_map in Hrows. split; [congruence|].
    constructor; [apply length_map|exact Hrows].
Qed.

Lemma dot_shape (M N : list (list F)) :
  length (dot M N) = length M
  /\ Forall (fun r => length r = length (hd [] N)) (dot M N).
Proof.
  unfold dot. split; [apply length_map|].
  apply Forall_forall. intros r Hin. apply in_map_iff in Hin as (r0 & <- & _).
  rewrite length_map. apply (transpose_cols_shape (length (hd [] N)) N).
Qed.



(** [init_strategy] raises only for a mean of dimension zero
    ([ZeroDivisionError], from [1.0 / (4.0 * n_dim)]).  Otherwise it returns
    the initial state: generation [0], zero paths, identity covariance, an
    empty cache, the mean and step size it was given, and one weight per
    individual (none when [population_size] is negative). *)
Theorem init_strategy_outcome :
  forall (mean_init : list F) (sigma0 : F) (population_size mu0 : Z),
    (mean_init = [] ->
     init_strategy mean_init sigma0 population_size mu0
     = Raise ZeroDivisionError)
    /\ (mean_init <> [] ->
        exists p m,
          init_strategy mean_init sigma0 population_size mu0 = Ok (p, m)
          /\ generation m = 0%Z /\ mean m = mean_init /\ sigma m = sigma0
          /\ p_sigma m = zeros (length mean_init)
          /\ p_c m = zeros (length mean_init)
          /\ C m = eye (length mean_init)
          /\ B m = None /\ D m = None
          /\ pop_size p = population_size /\ mu p = mu0
          /\ length (weights p) = Z.to_nat population_size
          /\ tol_x p = lit 1 (-12) * sigma0
          /\ min_generations p = 10%Z).
Proof.
  intros mean_init sigma0 population_size mu0. split.
  - intros ->. reflexivity.
  - intros Hne. unfold init_strategy, chi_n_of.
    destruct mean_init as [|a l]; [congruence|].
    replace (Z.of_nat (length (a :: l)) =? 0)%Z with false
      by (symmetry; apply Z.eqb_neq; simpl length; lia).
    cbn [bind]. eexists. eexists. split; [reflexivity|].
    cbn [generation mean sigma p_sigma p_c C B D pop_size mu weights tol_x
         min_generations].
    repeat split.
    unfold weights_of, weights_prime.
    rewrite !length_map. apply length_seq.
Qed.

End Shapes.

Section Shapes64.
Import Run64.


End Shapes64.

(** ** Exact arithmetic: the floor of [D], the learning rates and the weights *)

Section OnExtendedReals.
Local Open Scope R_scope.

Lemma Rltb_true (a b : R) : a < b -> Rltb a b = true.
Proof. intros Hlt. unfold Rltb. destruct (Rlt_dec a b); [reflexivity|contradiction]. Qed.

Lemma Rltb_false (a b : R) : b <= a -> Rltb a b = false.
Proof. intros Hle. unfold Rltb. destruct (Rlt_dec a b); [lra|reflexivity]. Qed.

Lemma Rltb_lt (a b : R) : Rltb a b = true -> a < b.
Proof. unfold Rltb. destruct (Rlt_dec a b); [trivial|discriminate]. Qed.

Lemma Rltb_ge (a b : R) : Rltb a b = false -> b <= a.
Proof. unfold Rltb. destruct (Rlt_dec a b); [discriminate|lra]. Qed.

Lemma Rleb_true (a b : R) : a <= b -> Rleb a b = true.
Proof. intros Hle. unfold Rleb. destruct (Rle_dec a b); [reflexivity|contradiction]. Qed.

Lemma Rleb_false (a b : R) : b < a -> Rleb a b = false.
Proof. intros Hlt. unfold Rleb. destruct (Rle_dec a b); [lra|reflexivity]. Qed.

Lemma Rleb_le (a b : R) : Rleb a b = true -> a <= b.
Proof. unfold Rleb. destruct (Rle_dec a b); [trivial|discriminate]. Qed.

Lemma Reqb_refl (a : R) : Reqb a a = true.
Proof. unfold Reqb. destruct (Req_dec_T a a); [reflexivity|congruence]. Qed.

Lemma Rsign_pos (a : R) : 0 < a -> Rsign a = Gt.
Proof.
  intros Ha. unfold Rsign.
  destruct (Rlt_dec a 0); [lra|]. destruct (Rlt_dec 0 a); [reflexivity|lra].
Qed.

Lemma Rsign_neg (a : R) : a < 0 -> Rsign a = Lt.
Proof. intros Ha. unfold Rsign. destruct (Rlt_dec a 0); [reflexivity|lra]. Qed.

Lemma Rsign_zero : Rsign 0 = Eq.
Proof.
  unfold Rsign. destruct (Rlt_dec 0 0); [lra|]. reflexivity.
Qed.

(** The operations on finite values. *)
Lemma xr_div (a b : R) : b <> 0 -> (Fin a / Fin b)%num = Fin (a / b).
Proof.
  intros Hb. change (xdiv (Fin a) (Fin b) = Fin (a / b)). unfold xdiv.
  destruct (Req_dec_T b 0); [contradiction|reflexivity].
Qed.

Lemma xr_div_zero (a : R) : (Fin a / Fin 0)%num = signed_inf (Rsign a).
Proof.
  change (xdiv (Fin a) (Fin 0) = signed_inf (Rsign a)). unfold xdiv.
  destruct (Req_dec_T 0 0); [reflexivity|congruence].
Qed.

Lemma xr_sqrt (a : R) : 0 <= a -> fsqrt (Fin a) = Fin (sqrt a).
Proof.
  intros Ha. change (xsqrt (Fin a) = Fin (sqrt a)). unfold xsqrt.
  destruct (Rlt_dec a 0); [lra|reflexivity].
Qed.

Lemma xr_log (a : R) : 0 < a -> flog (Fin a) = Fin (ln a).
Proof.
  intros Ha. change (xlog (Fin a) = Fin (ln a)). unfold xlog.
  destruct (Rlt_dec a 0); [lra|]. destruct (Rlt_dec 0 a); [reflexivity|lra].
Qed.

Lemma IZR_pow10_neq_0 (k : Z) : (0 <= k)%Z -> IZR (10 ^ k) <> 0.
Proof.
  intros Hk Heq. apply eq_IZR in Heq.
  pose proof (Z.pow_pos_nonneg 10 k ltac:(lia) Hk). lia.
Qed.

Lemma xr_lit_neg (m e : Z) :
  (e < 0)%Z -> lit m e = Fin (IZR m / IZR (10 ^ (- e))).
Proof.
  intros He. unfold lit.
  replace (e <? 0)%Z with true by (symmetry; apply Z.ltb_lt; exact He).
  apply xr_div. apply IZR_pow10_neq_0. lia.
Qed.

Lemma xr_lit_pos (m e : Z) : (0 <= e)%Z -> lit m e = Fin (IZR (m * 10 ^ e)).
Proof.
  intros He. unfold lit.
  replace (e <? 0)%Z with false by (symmetry; apply Z.ltb_ge; exact He).
  reflexivity.
Qed.

Lemma floor_value : lit 1 (-20) = Fin (1 / IZR (10 ^ 20)) /\ 0 < 1 / IZR (10 ^ 20).
Proof.
  split.
  - apply (@xr_lit_neg 1 (-20)). lia.
  - apply Rdiv_lt_0_compat; [lra|]. apply IZR_lt. reflexivity.
Qed.

(** In exact arithmetic and for any eigensolver: an entry of [D] is
    [sqrt 1e-20] where the eigenvalue is below [0] and the square root of
    the eigenvalue otherwise.  It is at least [sqrt 1e-20] when the
    eigenvalue is below [0] or at least [1e-20], and at least [0] when the
    eigenvalue is at least [0]; eigenvalues in [[0, 1e-20)] are not
    replaced. *)
Theorem eigen_decomposition_floor :
  forall (eigh : list (list xreal) -> list xreal * list (list xreal))
         (C0 : list (list xreal)),
    let D2 := fst (eigh (mdiv (madd C0 (transpose C0)) two)) in
    let D' := snd (eigen_decomposition eigh C0 None None) in
    Forall2 (fun e d =>
               ((e <? zero)%num = true -> d = fsqrt (lit 1 (-20)))
               /\ ((e <? zero)%num = false -> d = fsqrt e)
               /\ ((e <? zero)%num = true \/ (lit 1 (-20) <=? e)%num = true ->
                   (fsqrt (lit 1 (-20)) <=? d)%num = true)
               /\ ((zero <=? e)%num = true -> (zero <=? d)%num = true))
            D2 D'.
Proof.
  intros eigh C0 D2 D'. subst D2 D'. unfold eigen_decomposition.
  destruct (eigh (mdiv (madd C0 (transpose C0)) two)) as [D2 B0].
  cbn [fst snd].
  destruct floor_value as [Hlit Hpos]. rewrite Hlit.
  set (f := 1 / IZR (10 ^ 20)) in *.
  assert (Hsf : fsqrt (Fin f) = Fin (sqrt f)) by (apply xr_sqrt; lra).
  induction D2 as [|e D2 IH]; [constructor|].
  cbn [map]. constructor; [|exact IH].
  destruct (e <? zero)%num eqn:Hneg.
  - repeat split; intros; try discriminate; try reflexivity.
    + rewrite Hsf. apply Rleb_true. lra.
    + destruct e as [r| | |]; cbn in Hneg, H; try discriminate.
      apply Rltb_lt in Hneg. apply Rleb_le in H. lra.
  - repeat split; intros; try discriminate; try reflexivity.
    + destruct H as [H|H]; [discriminate|].
      destruct e as [r| | |]; cbn in H; try discriminate.
      * apply Rleb_le in H. rewrite Hsf, xr_sqrt by lra.
        apply Rleb_true. apply sqrt_le_1; lra.
      * rewrite Hsf. reflexivity.
    + destruct e as [r| | |]; cbn in H; try discriminate.
      * apply Rleb_le in H. rewrite xr_sqrt by lra.
        apply Rleb_true. apply sqrt_pos.
      * reflexivity.
Qed.


(** Sums of finite values. *)
Lemma fold_left_Rplus (l : list R) (a : R) :
  fold_left Rplus l a = a + Rsum l.
Proof.
  revert a; induction l as [|x l IH]; intros a; cbn.
  - lra.
  - rewrite IH. unfold Rsum. lra.
Qed.

Lemma fold_left_fadd_fin (l : list R) (a : R) :
  fold_left fadd (map Fin l) (Fin a) = Fin (fold_left Rplus l a).
Proof.
  revert a; induction l as [|x l IH]; intros a; [reflexivity|].
  cbn [map fold_left]. apply IH.
Qed.

Lemma jnp_sum_fin (l : list R) : jnp_sum (map Fin l) = Fin (Rsum l).
Proof.
  unfold jnp_sum. change zero with (Fin 0).
  rewrite fold_left_fadd_fin, fold_left_Rplus. f_equal. lra.
Qed.

Lemma map_sq_fin (l : list R) :
  map sq (map Fin l) = map Fin (map (fun w => w * w) l).
Proof. rewrite !map_map. reflexivity. Qed.

Lemma Rsum_sq_nonneg (l : list R) : 0 <= Rsum (map (fun w => w * w) l).
Proof.
  unfold Rsum. induction l as [|x l IH]; cbn; [lra|]. nra.
Qed.

Lemma Rsum_sq_pos (l : list R) (w : R) :
  In w l -> w <> 0 -> 0 < Rsum (map (fun w => w * w) l).
Proof.
  induction l as [|x l IH]; cbn; [contradiction|].
  intros [->|Hin] Hw.
  - pose proof (Rsum_sq_nonneg l). unfold Rsum in *. nra.
  - specialize (IH Hin Hw). unfold Rsum in *. nra.
Qed.

Lemma effective_size_fin (l : list R) :
  effective_size (map Fin l)
  = fdiv (Fin (Rsum l * Rsum l)) (Fin (Rsum (map (fun w => w * w) l))).
Proof.
  unfold effective_size. rewrite map_sq_fin, !jnp_sum_fin. reflexivity.
Qed.

Lemma effective_size_nonzero (l : list R) (w : R) :
  In w l -> w <> 0 ->
  exists m, 0 <= m /\ effective_size (map Fin l) = Fin m.
Proof.
  intros Hin Hw. pose proof (@Rsum_sq_pos l w Hin Hw) as HQ.
  rewrite effective_size_fin, xr_div by lra.
  eexists. split; [|reflexivity].
  apply Rmult_le_pos; [nra|]. apply Rlt_le, Rinv_0_lt_compat, HQ.
Qed.

Lemma effective_size_empty : effective_size (@nil xreal) = NaN.
Proof.
  change (@nil xreal) with (map Fin []). rewrite effective_size_fin.
  cbn [map Rsum fold_right]. replace (0 * 0) with 0 by lra.
  rewrite xr_div_zero, Rsign_zero. reflexivity.
Qed.

(** [weights_prime] in exact arithmetic. *)
Lemma weights_prime_fin (population_size : Z) :
  (0 <= population_size)%Z ->
  weights_prime population_size = map Fin (wp_R population_size).
Proof.
  intros Hp. unfold weights_prime, wp_R. rewrite map_map.
  apply map_ext. intros i. change two with (Fin 2).
  change (of_Z (population_size + 1)) with (Fin (IZR (population_size + 1))).
  change (of_Z (Z.of_nat i + 1)) with (Fin (IZR (Z.of_nat i + 1))).
  assert (0 < IZR (population_size + 1)) by (apply IZR_lt; lia).
  assert (0 < IZR (Z.of_nat i + 1)) by (apply IZR_lt; lia).
  rewrite xr_div by lra.
  rewrite !xr_log; [reflexivity| assumption |].
  apply Rdiv_lt_0_compat; lra.
Qed.

Lemma ln_pos (x : R) : 1 < x -> 0 < ln x.
Proof. intros Hx. rewrite <- ln_1. apply ln_increasing; lra. Qed.

Lemma wp_R_first (population_size : Z) (k : nat) :
  (2 <= population_size)%Z -> (1 <= k)%nat ->
  exists w, In w (firstn k (wp_R population_size)) /\ 0 < w.
Proof.
  intros Hp Hk. unfold wp_R.
  destruct (Z.to_nat population_size) as [|n] eqn:Hn; [lia|].
  destruct k as [|k]; [lia|].
  cbn [seq map firstn]. eexists. split; [left; reflexivity|].
  cbn [Z.of_nat Z.add]. rewrite ln_1.
  assert (3 <= IZR (population_size + 1)) by (apply IZR_le; lia).
  pose proof (@ln_pos (IZR (population_size + 1) / 2)). lra.
Qed.

Lemma wp_R_last (population_size : Z) (k : nat) :
  (2 <= population_size)%Z -> (k < Z.to_nat population_size)%nat ->
  exists w, In w (skipn k (wp_R population_size)) /\ w < 0.
Proof.
  intros Hp Hk. unfold wp_R. rewrite skipn_map, skipn_seq.
  set (f := fun i : nat =>
              ln (IZR (population_size + 1) / 2) - ln (IZR (Z.of_nat i + 1))).
  exists (f (Z.to_nat population_size - 1)%nat). split.
  - apply in_map. apply in_seq. lia.
  - unfold f.
    replace (Z.of_nat (Z.to_nat population_size - 1) + 1)%Z
      with population_size by lia.
    assert (2 <= IZR population_size) by (apply IZR_le; lia).
    rewrite plus_IZR.
    pose proof (ln_increasing ((IZR population_size + 1) / 2)
                              (IZR population_size)).
    lra.
Qed.


Lemma lit_13 : lit 13 (-1) = Fin (13 / 10).
Proof. rewrite xr_lit_neg by lia. reflexivity. Qed.

Lemma lit_e8 : lit 1 (-8) = Fin (1 / 100000000).
Proof. rewrite xr_lit_neg by lia. reflexivity. Qed.

Lemma slice_to_fin (W : list R) (k : Z) :
  (0 <= k)%Z -> slice_to (map Fin W) k = map Fin (firstn (Z.to_nat k) W).
Proof.
  intros Hk. unfold slice_to.
  replace (k <? 0)%Z with false by (symmetry; apply Z.ltb_ge; exact Hk).
  apply firstn_map.
Qed.

Lemma slice_from_fin (W : list R) (k : Z) :
  (0 <= k)%Z -> slice_from (map Fin W) k = map Fin (skipn (Z.to_nat k) W).
Proof.
  intros Hk. unfold slice_from.
  replace (k <? 0)%Z with false by (symmetry; apply Z.ltb_ge; exact Hk).
  apply skipn_map.
Qed.

Lemma wp_R_length (population_size : Z) :
  length (wp_R population_size) = Z.to_nat population_size.
Proof. unfold wp_R. rewrite length_map, length_seq. reflexivity. Qed.

Lemma mu_eff_finite (population_size mu0 : Z) :
  (2 <= population_size)%Z -> (1 <= mu0 <= population_size)%Z ->
  exists m, 0 <= m /\ mu_eff_of population_size mu0 = Fin m.
Proof.
  intros Hp Hmu. unfold mu_eff_of.
  rewrite weights_prime_fin, slice_to_fin by lia.
  destruct (@wp_R_first population_size (Z.to_nat mu0) Hp) as (w & Hin & Hw); [lia|].
  apply (@effective_size_nonzero _ w Hin). lra.
Qed.

Lemma mu_eff_minus_cases (population_size mu0 : Z) :
  (2 <= population_size)%Z -> (1 <= mu0 <= population_size)%Z ->
  mu_eff_minus_of population_size mu0 = NaN
  \/ exists m, 0 <= m /\ mu_eff_minus_of population_size mu0 = Fin m.
Proof.
  intros Hp Hmu. unfold mu_eff_minus_of.
  rewrite weights_prime_fin, slice_from_fin by lia.
  destruct (Z.eq_dec mu0 population_size) as [->|Hne].
  - left. rewrite skipn_all2 by (rewrite wp_R_length; lia).
    apply effective_size_empty.
  - right.
    destruct (@wp_R_last population_size (Z.to_nat mu0) Hp) as (w & Hin & Hw); [lia|].
    apply (@effective_size_nonzero _ w Hin). lra.
Qed.

Ltac xr_eval :=
  cbn [fadd fsub fmul of_Z xreal_scalar xadd xsub xopp xmul
       zero one two sq alpha_cov].

Lemma c_1_fin (n_dim : Z) (m : R) :
  (0 <= n_dim)%Z -> 0 <= m ->
  exists c1, c_1_of n_dim (Fin m) = Fin c1 /\ 0 < c1
             /\ ((1 <= n_dim)%Z -> c1 < 1 / 2).
Proof.
  intros Hn Hm. unfold c_1_of. rewrite lit_13. xr_eval.
  assert (0 <= IZR n_dim) by (apply IZR_le; exact Hn).
  set (d := (IZR n_dim + 13 / 10) * (IZR n_dim + 13 / 10) + m).
  assert (Hd : 169 / 100 <= d) by (unfold d; nra).
  rewrite xr_div by lra.
  eexists. split; [reflexivity|]. split.
  - apply Rdiv_lt_0_compat; lra.
  - intros Hn1. assert (1 <= IZR n_dim) by (apply IZR_le; exact Hn1).
    assert (Hd' : 529 / 100 <= d) by (unfold d; nra).
    apply Rmult_lt_reg_r with d; [lra|].
    unfold Rdiv at 1. rewrite Rmult_assoc, Rinv_l by lra. lra.
Qed.

Lemma isnan_fin (a : R) : isnan (Fin a) = false.
Proof.
  unfold isnan. change (Fin a =? Fin a)%num with (Reqb a a).
  rewrite Reqb_refl. reflexivity.
Qed.

Lemma jnp_minimum_fin (a b : R) :
  exists c, jnp_minimum (Fin a) (Fin b) = Fin c /\ c <= a /\ c <= b
            /\ (c = a \/ c = b).
Proof.
  unfold jnp_minimum. rewrite !isnan_fin.
  change (Fin b <? Fin a)%num with (Rltb b a).
  destruct (Rltb b a) eqn:Hlt.
  - apply Rltb_lt in Hlt. exists b. repeat split; try lra.
  - apply Rltb_ge in Hlt. exists a. repeat split; try lra.
Qed.

Lemma jnp_minimum_fin_inf (a : R) : jnp_minimum (Fin a) PInf = Fin a.
Proof. unfold jnp_minimum. rewrite isnan_fin. reflexivity. Qed.

Lemma c_mu_fin (n_dim : Z) (m c1 : R) :
  (0 <= n_dim)%Z -> 0 <= m ->
  exists cm, c_mu_of n_dim (Fin m) (Fin c1) = Fin cm
             /\ cm <= 1 - c1 - 1 / 100000000
             /\ (c1 <= 1 - 1 / 100000000 -> 0 <= cm).
Proof.
  intros Hn Hm. unfold c_mu_of. rewrite lit_e8. xr_eval.
  assert (Hn2 : 4 <= IZR ((n_dim + 2) ^ 2)) by (apply IZR_le; nia).
  rewrite (@xr_div (2 * m) 2) by lra. xr_eval.
  set (d := IZR ((n_dim + 2) ^ 2) + 2 * m / 2).
  assert (Hd : 0 < d) by (unfold d; lra).
  destruct (Req_dec_T m 0) as [->|Hm0].
  - rewrite xr_div_zero, Rsign_pos by lra. cbn [signed_inf]. xr_eval.
    rewrite Rsign_pos by lra. cbn [signed_inf].
    change (PInf / Fin d)%num with (xdiv PInf (Fin d)). unfold xdiv.
    destruct (Rlt_dec d 0); [lra|].
    rewrite jnp_minimum_fin_inf.
    eexists. split; [reflexivity|]. split; lra.
  - rewrite (@xr_div 1 m Hm0). xr_eval. rewrite xr_div by lra.
    match goal with
    | |- context [jnp_minimum (Fin ?a) (Fin ?b)] =>
        destruct (jnp_minimum_fin a b) as (c & -> & Hca & Hcb & Hc);
        assert (Hb : 0 <= b)
    end.
    { apply Rmult_le_pos; [|apply Rlt_le, Rinv_0_lt_compat, Hd].
      assert (0 < m) by lra.
      replace (m + - (2) + 1 / m) with ((m - 1) * (m - 1) / m) by (field; lra).
      apply Rmult_le_pos; [lra|].
      apply Rmult_le_pos; [exact (Rle_0_sqr (m - 1))|].
      apply Rlt_le, Rinv_0_lt_compat. lra. }
    exists c. split; [reflexivity|]. split; [lra|].
    intros Hc1. destruct Hc as [->| ->]; lra.
Qed.


Lemma c_sigma_fin (n_dim : Z) (m : R) :
  (0 <= n_dim)%Z -> 0 <= m ->
  exists cs, c_sigma_of n_dim (Fin m) = Fin cs /\ 0 < cs < 1.
Proof.
  intros Hn Hm. unfold c_sigma_of. xr_eval.
  assert (0 <= IZR n_dim) by (apply IZR_le; exact Hn).
  rewrite xr_div by lra.
  eexists. split; [reflexivity|]. split.
  - apply Rdiv_lt_0_compat; lra.
  - apply Rmult_lt_reg_r with (IZR n_dim + m + 5); [lra|].
    unfold Rdiv. rewrite Rmult_assoc, Rinv_l by lra. lra.
Qed.

Lemma c_c_fin (n_dim : Z) (m : R) :
  (1 <= n_dim)%Z -> 0 <= m ->
  exists cc, c_c_of n_dim (Fin m) = Fin cc /\ 0 < cc <= 1.
Proof.
  intros Hn Hm. unfold c_c_of. xr_eval.
  assert (Hn1 : 1 <= IZR n_dim) by (apply IZR_le; exact Hn).
  rewrite (@xr_div m (IZR n_dim)) by lra. xr_eval.
  rewrite (@xr_div (2 * m) (IZR n_dim)) by lra. xr_eval.
  rewrite plus_IZR.
  assert (Hq : 0 <= m / IZR n_dim).
  { apply Rmult_le_pos; [lra|]. apply Rlt_le, Rinv_0_lt_compat. lra. }
  assert (Hq2 : 2 * m / IZR n_dim = 2 * (m / IZR n_dim))
    by (unfold Rdiv; ring).
  rewrite Hq2. set (q := m / IZR n_dim) in *.
  rewrite xr_div by lra.
  eexists. split; [reflexivity|]. split.
  - apply Rdiv_lt_0_compat; lra.
  - apply Rmult_le_reg_r with (IZR n_dim + 4 + 2 * q); [lra|].
    unfold Rdiv. rewrite Rmult_assoc, Rinv_l by lra. lra.
Qed.

(** The learning rates as real numbers.  For a population of at least
    two, [1 <= mu <= population_size] and a mean of dimension at least one,
    [init_strategy] returns, and the formulas of its learning rates,
    evaluated without rounding, give real numbers with [0 < c_1 < 1/2],
    [0 <= c_mu], [c_1 + c_mu <= 1 - 1e-8], [0 < c_sigma < 1] and
    [0 < c_c <= 1].  The margin [1e-8] comes from the first argument of the
    [jnp.minimum] that defines [c_mu]; it is smaller than the spacing of
    single-precision numbers next to [1 - c_1], so nothing is said here
    about a comparison of the rounded values, in particular about
    [c_1 <= 1 - c_mu]. *)
Theorem init_strategy_exact_rates :
  forall (mean_init : list xreal) (sigma0 : xreal) (population_size mu0 : Z),
    mean_init <> [] ->
    (2 <= population_size)%Z ->
    (1 <= mu0 <= population_size)%Z ->
    exists p m c1 cm cs cc,
      init_strategy mean_init sigma0 population_size mu0 = Ok (p, m)
      /\ c_1 p = Fin c1 /\ c_mu p = Fin cm
      /\ c_sigma p = Fin cs /\ c_c p = Fin cc
      /\ 0 < c1 < 1 / 2 /\ 0 <= cm /\ c1 + cm <= 1 - 1 / 100000000
      /\ 0 < cs < 1 /\ 0 < cc <= 1.
Proof.
  intros mean_init sigma0 population_size mu0 Hne Hp Hmu.
  unfold init_strategy, chi_n_of.
  destruct mean_init as [|a l]; [congruence|].
  replace (Z.of_nat (length (a :: l)) =? 0)%Z with false
    by (symmetry; apply Z.eqb_neq; simpl length; lia).
  cbn [bind].
  set (n := Z.of_nat (length (a :: l))).
  assert (Hn : (1 <= n)%Z) by (unfold n; simpl length; lia).
  destruct (mu_eff_finite Hp Hmu) as (m & Hm0 & ->).
  destruct (@c_1_fin n m) as (c1 & -> & Hc1 & Hhalf); [lia|exact Hm0|].
  destruct (@c_mu_fin n m c1) as (cm & -> & Hcm & Hcm0); [lia|exact Hm0|].
  destruct (@c_sigma_fin n m) as (cs & -> & Hcs); [lia|exact Hm0|].
  destruct (@c_c_fin n m) as (cc & -> & Hcc); [lia|exact Hm0|].
  specialize (Hhalf Hn).
  assert (0 <= cm) by (apply Hcm0; lra).
  eexists. eexists. exists c1, cm, cs, cc. split; [reflexivity|].
  cbn [c_1 c_mu c_sigma c_c].
  repeat split; try reflexivity; lra.
Qed.


(** A population of at most one individual. *)
Lemma Rsum_zeros (l : list R) : Forall (fun w => w = 0) l -> Rsum l = 0.
Proof.
  unfold Rsum. induction 1 as [|x l Hx _ IH]; cbn [fold_right]; [reflexivity|].
  rewrite Hx, IH. lra.
Qed.

Lemma effective_size_zeros (l : list R) :
  Forall (fun w => w = 0) l -> effective_size (map Fin l) = NaN.
Proof.
  intros Hl. rewrite effective_size_fin.
  rewrite (Rsum_zeros Hl).
  assert (Hsq : Forall (fun w => w = 0) (map (fun w => w * w) l)).
  { apply Forall_forall. intros x Hin.
    apply in_map_iff in Hin as (w & <- & Hw).
    rewrite Forall_forall in Hl. rewrite (Hl w Hw). lra. }
  rewrite (Rsum_zeros Hsq). replace (0 * 0) with 0 by lra.
  rewrite xr_div_zero, Rsign_zero. reflexivity.
Qed.

Lemma wp_R_small (population_size : Z) :
  (population_size <= 1)%Z -> Forall (fun w => w = 0) (wp_R population_size).
Proof.
  intros Hp. unfold wp_R.
  destruct (Z.to_nat population_size) as [|[|k]] eqn:Hk; [constructor| |lia].
  assert (population_size = 1%Z) as -> by lia.
  cbn [seq map Z.of_nat Z.add Pos.add]. constructor; [|constructor].
  replace (IZR 2 / 2) with 1 by lra. lra.
Qed.

Lemma weights_prime_any (population_size : Z) :
  weights_prime population_size = map Fin (wp_R population_size).
Proof.
  destruct (Z.le_gt_cases 0 population_size) as [Hp|Hp].
  - apply weights_prime_fin. exact Hp.
  - unfold weights_prime, wp_R.
    replace (Z.to_nat population_size) with 0%nat by lia. reflexivity.
Qed.

Lemma slice_to_zeros (l : list R) (k : Z) :
  Forall (fun w => w = 0) l ->
  exists l', slice_to (map Fin l) k = map Fin l' /\ Forall (fun w => w = 0) l'.
Proof.
  intros Hl.
  assert (Hf : forall j, Forall (fun w => w = 0) (firstn j l)).
  { intros j. rewrite <- (firstn_skipn j l) in Hl.
    apply Forall_app in Hl. apply Hl. }
  unfold slice_to. rewrite length_map.
  destruct (k <? 0)%Z; rewrite firstn_map; eexists;
    (split; [reflexivity|apply Hf]).
Qed.

Lemma xadd_nan_r (x : xreal) : xadd x NaN = NaN.
Proof. destruct x; reflexivity. Qed.

Lemma xmul_nan_r (x : xreal) : xmul x NaN = NaN.
Proof. destruct x; reflexivity. Qed.

Lemma xdiv_nan_r (x : xreal) : xdiv x NaN = NaN.
Proof. destruct x; reflexivity. Qed.

(** With a population of at most one individual the selected raw weights
    are all zero (or there are none), their effective size is [0 / 0], and
    every learning rate derived from it is NaN: none of the comparisons of
    [check_initialization] holds for them.  This is for every [mu] and every
    non-empty mean. *)
Theorem init_strategy_small_population :
  forall (mean_init : list xreal) (sigma0 : xreal) (population_size mu0 : Z),
    mean_init <> [] ->
    (population_size <= 1)%Z ->
    exists p m,
      init_strategy mean_init sigma0 population_size mu0 = Ok (p, m)
      /\ mu_eff p = NaN /\ c_1 p = NaN /\ c_mu p = NaN
      /\ c_sigma p = NaN /\ d_sigma p = NaN /\ c_c p = NaN
      /\ (c_1 p <=? one - c_mu p)%num = false
      /\ (c_mu p <=? one - c_1 p)%num = false
      /\ (c_sigma p <? one)%num = false
      /\ (c_c p <=? one)%num = false.
Proof.
  intros mean_init sigma0 population_size mu0 Hne Hp.
  unfold init_strategy, chi_n_of.
  destruct mean_init as [|a l]; [congruence|].
  replace (Z.of_nat (length (a :: l)) =? 0)%Z with false
    by (symmetry; apply Z.eqb_neq; simpl length; lia).
  cbn [bind]. eexists. eexists. split; [reflexivity|].
  cbn [mu_eff c_1 c_mu c_sigma d_sigma c_c].
  set (n := Z.of_nat (length (a :: l))).
  assert (Hm : mu_eff_of population_size mu0 = NaN).
  { unfold mu_eff_of. rewrite weights_prime_any.
    destruct (@slice_to_zeros (wp_R population_size) mu0 (wp_R_small Hp))
      as (l' & -> & Hl').
    apply effective_size_zeros. exact Hl'. }
  rewrite Hm.
  assert (Hc1 : c_1_of n NaN = NaN).
  { unfold c_1_of. cbn [fadd fdiv xreal_scalar].
    rewrite xadd_nan_r, xdiv_nan_r. reflexivity. }
  rewrite Hc1.
  assert (Hcs : c_sigma_of n NaN = NaN) by reflexivity.
  rewrite Hcs.
  assert (Hcm : c_mu_of n NaN NaN = NaN) by reflexivity.
  rewrite Hcm.
  assert (Hcc : c_c_of n NaN = NaN).
  { unfold c_c_of. cbn [fadd fdiv xreal_scalar xdiv].
    rewrite xadd_nan_r. reflexivity. }
  rewrite Hcc.
  assert (Hds : d_sigma_of n NaN NaN = NaN).
  { unfold d_sigma_of. cbn [fadd xreal_scalar]. apply xadd_nan_r. }
  rewrite Hds.
  repeat split.
Qed.


(** The raw weights: signs and order. *)
Lemma wp_R_map (population_size : Z) :
  wp_R population_size
  = map (wp_at population_size) (seq 0 (Z.to_nat population_size)).
Proof. reflexivity. Qed.

Lemma ln_le (x y : R) : 0 < x -> x <= y -> ln x <= ln y.
Proof.
  intros Hx [Hlt | ->]; [|lra]. apply Rlt_le, ln_increasing; assumption.
Qed.

Lemma wp_at_nonneg (population_size : Z) (i : nat) :
  (2 * (Z.of_nat i + 1) <= population_size + 1)%Z ->
  0 <= wp_at population_size i.
Proof.
  intros Hi. unfold wp_at.
  assert (1 <= IZR (Z.of_nat i + 1)) by (apply IZR_le; lia).
  assert (2 * IZR (Z.of_nat i + 1) <= IZR (population_size + 1)).
  { rewrite <- mult_IZR. apply IZR_le. exact Hi. }
  pose proof (@ln_le (IZR (Z.of_nat i + 1)) (IZR (population_size + 1) / 2)).
  lra.
Qed.

Lemma wp_at_nonpos (population_size : Z) (i : nat) :
  (0 <= population_size)%Z ->
  (population_size + 1 <= 2 * (Z.of_nat i + 1))%Z ->
  wp_at population_size i <= 0.
Proof.
  intros Hp Hi. unfold wp_at.
  assert (1 <= IZR (population_size + 1)) by (apply IZR_le; lia).
  assert (IZR (population_size + 1) <= 2 * IZR (Z.of_nat i + 1)).
  { rewrite <- mult_IZR. apply IZR_le. exact Hi. }
  pose proof (@ln_le (IZR (population_size + 1) / 2) (IZR (Z.of_nat i + 1))).
  lra.
Qed.

Lemma wp_at_decreasing (population_size : Z) (i j : nat) :
  (i < j)%nat -> wp_at population_size j < wp_at population_size i.
Proof.
  intros Hij. unfold wp_at.
  assert (1 <= IZR (Z.of_nat i + 1)) by (apply IZR_le; lia).
  assert (IZR (Z.of_nat i + 1) < IZR (Z.of_nat j + 1)) by (apply IZR_lt; lia).
  pose proof (ln_increasing (IZR (Z.of_nat i + 1)) (IZR (Z.of_nat j + 1))).
  lra.
Qed.

(** The raw weights are strictly decreasing in the rank: individual [i]
    has a larger raw weight than individual [j] whenever [i < j]. *)
Theorem weights_prime_decreasing :
  forall (population_size : Z) (i j : nat),
    (i < j < Z.to_nat population_size)%nat ->
    exists a b,
      nth_error (weights_prime population_size) i = Some (Fin a)
      /\ nth_error (weights_prime population_size) j = Some (Fin b)
      /\ (Fin b <? Fin a)%num = true.
Proof.
  intros population_size i j [Hij Hj].
  rewrite weights_prime_any, wp_R_map, map_map.
  exists (wp_at population_size i), (wp_at population_size j).
  assert (Hnth : forall k, (k < Z.to_nat population_size)%nat ->
            nth_error (map (fun x => Fin (wp_at population_size x))
                           (seq 0 (Z.to_nat population_size))) k
            = Some (Fin (wp_at population_size k))).
  { intros k Hk. rewrite nth_error_map, nth_error_seq.
    replace (k <? Z.to_nat population_size)%nat with true
      by (symmetry; apply Nat.ltb_lt; exact Hk).
    reflexivity. }
  rewrite !Hnth by lia. repeat split.
  apply Rltb_true. apply wp_at_decreasing. exact Hij.
Qed.


(** The weights that [update_mean] selects. *)
Lemma Rsum_app (l1 l2 : list R) : Rsum (l1 ++ l2) = Rsum l1 + Rsum l2.
Proof.
  unfold Rsum. induction l1 as [|x l1 IH]; cbn [app fold_right]; [lra|].
  rewrite IH. lra.
Qed.

Lemma Rsum_scale (c : R) (l : list R) :
  Rsum (map (fun w => c * w) l) = c * Rsum l.
Proof.
  unfold Rsum. induction l as [|x l IH]; cbn [map fold_right]; [lra|].
  rewrite IH. lra.
Qed.

Lemma Rsum_nonneg (l : list R) : Forall (fun w => 0 <= w) l -> 0 <= Rsum l.
Proof.
  unfold Rsum. induction 1 as [|x l Hx _ IH]; cbn [fold_right]; lra.
Qed.

Lemma Rsum_pos (l : list R) (w : R) :
  Forall (fun w => 0 <= w) l -> In w l -> 0 < w -> 0 < Rsum l.
Proof.
  intros Hl. revert w. induction Hl as [|x l Hx Hl IH]; intros w Hin Hw.
  - contradiction.
  - pose proof (Rsum_nonneg Hl) as Hs. unfold Rsum in *. cbn [fold_right].
    destruct Hin as [->|Hin]; [lra|]. specialize (IH w Hin Hw). lra.
Qed.

Lemma Rsum_filter_nonneg (l : list R) :
  Forall (fun w => 0 <= w) l -> Rsum (filter (Rltb 0) l) = Rsum l.
Proof.
  unfold Rsum. induction 1 as [|x l Hx _ IH]; cbn [filter fold_right];
    [reflexivity|].
  destruct (Rltb 0 x) eqn:Hb; cbn [fold_right]; rewrite IH; [reflexivity|].
  apply Rltb_ge in Hb. lra.
Qed.

Lemma filter_nonpos (l : list R) :
  Forall (fun w => w <= 0) l -> filter (Rltb 0) l = [].
Proof.
  induction 1 as [|x l Hx _ IH]; cbn [filter]; [reflexivity|].
  rewrite Rltb_false by exact Hx. exact IH.
Qed.

Lemma positive_sum_fin (W : list R) :
  positive_sum (map Fin W) = Fin (Rsum (filter (Rltb 0) W)).
Proof.
  unfold positive_sum. rewrite <- jnp_sum_fin. f_equal.
  induction W as [|x W IH]; [reflexivity|].
  cbn [map filter]. rewrite IH.
  change (fgt (Fin x) zero) with (Rltb 0 x).
  destruct (Rltb 0 x); reflexivity.
Qed.

Lemma in_firstn_seq (k a n i : nat) :
  In i (firstn k (seq a n)) -> (a <= i < a + k)%nat.
Proof.
  revert a n. induction k as [|k IH]; intros a n; [contradiction|].
  destruct n as [|n]; [contradiction|].
  cbn [seq firstn]. intros [<-|Hin]; [lia|].
  apply IH in Hin. lia.
Qed.

Lemma wp_R_firstn (population_size : Z) (k : nat) :
  (2 * Z.of_nat k <= population_size + 1)%Z ->
  Forall (fun w => 0 <= w) (firstn k (wp_R population_size)).
Proof.
  intros Hk. rewrite wp_R_map, firstn_map. apply Forall_forall.
  intros w Hin. apply in_map_iff in Hin as (i & <- & Hi).
  apply in_firstn_seq in Hi.
  apply wp_at_nonneg. lia.
Qed.

Lemma wp_R_skipn (population_size : Z) (k : nat) :
  (0 <= population_size)%Z ->
  (population_size - 1 <= 2 * Z.of_nat k)%Z ->
  Forall (fun w => w <= 0) (skipn k (wp_R population_size)).
Proof.
  intros Hp Hk. rewrite wp_R_map, skipn_map. apply Forall_forall.
  intros w Hin. apply in_map_iff in Hin as (i & <- & Hi).
  rewrite skipn_seq in Hi. apply in_seq in Hi.
  apply wp_at_nonpos; lia.
Qed.

Lemma positive_sum_prefix (population_size : Z) (k : nat) :
  (0 <= population_size)%Z ->
  (population_size - 1 <= 2 * Z.of_nat k <= population_size + 1)%Z ->
  positive_sum (weights_prime population_size)
  = Fin (Rsum (firstn k (wp_R population_size))).
Proof.
  intros Hp [Hlo Hhi]. rewrite weights_prime_any, positive_sum_fin. f_equal.
  rewrite <- (firstn_skipn k (wp_R population_size)) at 1.
  rewrite filter_app, Rsum_app.
  rewrite (filter_nonpos (wp_R_skipn k Hp Hlo)).
  rewrite (Rsum_filter_nonneg (wp_R_firstn population_size k Hhi)).
  cbn [Rsum fold_right]. lra.
Qed.

(** With [mu] the number of individuals whose raw weight is positive
    ([population_size // 2], and also [(population_size + 1) // 2], whose
    extra individual has weight [0]), the weights [weights[:mu]] that
    [update_mean] multiplies the selected steps with sum to exactly [1], and
    each of them is at least [0]: the new mean is a convex combination of
    the [mu] best candidates. *)
Theorem init_strategy_selected_weights :
  forall (mean_init : list xreal) (sigma0 : xreal) (population_size mu0 : Z),
    mean_init <> [] ->
    (2 <= population_size)%Z ->
    (population_size - 1 <= 2 * mu0 <= population_size + 1)%Z ->
    exists p m,
      init_strategy mean_init sigma0 population_size mu0 = Ok (p, m)
      /\ jnp_sum (slice_to (weights p) mu0) = one
      /\ Forall (fun w => (zero <=? w)%num = true) (slice_to (weights p) mu0).
Proof.
  intros mean_init sigma0 population_size mu0 Hne Hp Hmu.
  unfold init_strategy, chi_n_of.
  destruct mean_init as [|a l]; [congruence|].
  replace (Z.of_nat (length (a :: l)) =? 0)%Z with false
    by (symmetry; apply Z.eqb_neq; simpl length; lia).
  cbn [bind]. eexists. eexists. split; [reflexivity|].
  cbn [weights].
  match goal with
  | |- context [weights_of ?x _] => generalize x
  end.
  intros ma.
  unfold weights_of.
  rewrite (@positive_sum_prefix population_size (Z.to_nat mu0)) by lia.
  set (A := firstn (Z.to_nat mu0) (wp_R population_size)).
  assert (HA : Forall (fun w => 0 <= w) A)
    by (apply wp_R_firstn; lia).
  assert (Hs : 0 < Rsum A).
  { destruct (@wp_R_first population_size (Z.to_nat mu0) Hp) as (w & Hin & Hw);
      [lia|].
    exact (Rsum_pos HA Hin Hw). }
  set (s := Rsum A) in *.
  unfold slice_to.
  replace (mu0 <? 0)%Z with false by (symmetry; apply Z.ltb_ge; lia).
  rewrite firstn_map.
  rewrite weights_prime_any at 1.
  rewrite weights_prime_any at 1.
  rewrite firstn_map. fold A. rewrite map_map.
  assert (Hmap :
    map (fun x : R =>
           if fge (Fin x) zero
           then (one / Fin s * Fin x)%num
           else (ma / negative_sum (weights_prime population_size)
                 * Fin x)%num) A
    = map Fin (map (fun w => 1 / s * w) A)).
  { rewrite map_map. apply map_ext_in. intros w Hin.
    rewrite Forall_forall in HA. specialize (HA w Hin).
    change (fge (Fin w) zero) with (Rleb 0 w).
    rewrite Rleb_true by exact HA.
    change one with (Fin 1). rewrite xr_div by lra. reflexivity. }
  rewrite Hmap. split.
  - rewrite jnp_sum_fin, Rsum_scale. fold s.
    change one with (Fin 1). f_equal. field. lra.
  - apply Forall_forall. intros x Hin.
    apply in_map_iff in Hin as (y & <- & Hy).
    apply in_map_iff in Hy as (w & <- & Hw).
    rewrite Forall_forall in HA. specialize (HA w Hw).
    change (zero <=? Fin (1 / s * w))%num with (Rleb 0 (1 / s * w)).
    apply Rleb_true. apply Rmult_le_pos; [|exact HA].
    apply Rlt_le, Rdiv_lt_0_compat; lra.
Qed.


(** Step-size control. *)
Lemma Rsum_sq_le (l : list R) :
  Forall (fun w => 0 <= w) l ->
  Rsum (map (fun w => w * w) l) <= Rsum l * Rsum l.
Proof.
  intros Hl. induction Hl as [|x l Hx Hl IH].
  - unfold Rsum. cbn [map fold_right]. lra.
  - pose proof (Rsum_nonneg Hl) as Hs. unfold Rsum in *.
    cbn [map fold_right].
    set (S1 := fold_right Rplus 0 l) in *.
    set (S2 := fold_right Rplus 0 (map (fun w => w * w) l)) in *.
    assert (0 <= x * S1) by (apply Rmult_le_pos; assumption).
    replace ((x + S1) * (x + S1)) with (x * x + 2 * (x * S1) + S1 * S1)
      by ring.
    lra.
Qed.

Lemma mu_eff_ge_1 (population_size mu0 : Z) :
  (2 <= population_size)%Z -> (1 <= mu0)%Z ->
  (2 * mu0 <= population_size + 1)%Z ->
  exists m, 1 <= m /\ mu_eff_of population_size mu0 = Fin m.
Proof.
  intros Hp Hmu Hhi. unfold mu_eff_of.
  rewrite weights_prime_any, slice_to_fin by lia.
  set (A := firstn (Z.to_nat mu0) (wp_R population_size)).
  assert (HA : Forall (fun w => 0 <= w) A) by (apply wp_R_firstn; lia).
  destruct (@wp_R_first population_size (Z.to_nat mu0) Hp) as (w & Hin & Hw);
    [lia|].
  fold A in Hin.
  assert (HQ : 0 < Rsum (map (fun w => w * w) A)).
  { apply (@Rsum_sq_pos A w Hin). lra. }
  pose proof (Rsum_sq_le HA) as Hle.
  rewrite effective_size_fin, xr_div by lra.
  eexists. split; [|reflexivity].
  apply Rmult_le_reg_r with (Rsum (map (fun w => w * w) A)); [exact HQ|].
  unfold Rdiv. rewrite Rmult_assoc, Rinv_l by lra. lra.
Qed.

Lemma jnp_maximum_zero_fin (b : R) :
  exists c, jnp_maximum zero (Fin b) = Fin c /\ 0 <= c.
Proof.
  unfold jnp_maximum. change zero with (Fin 0). rewrite !isnan_fin.
  change (Fin 0 <? Fin b)%num with (Rltb 0 b).
  destruct (Rltb 0 b) eqn:Hlt.
  - apply Rltb_lt in Hlt. exists b. split; [reflexivity|lra].
  - exists 0. split; [reflexivity|lra].
Qed.

Lemma d_sigma_fin (n_dim : Z) (m cs : R) :
  (0 <= n_dim)%Z -> 1 <= m -> 0 < cs ->
  exists d, d_sigma_of n_dim (Fin m) (Fin cs) = Fin d /\ 1 < d.
Proof.
  intros Hn Hm Hcs. unfold d_sigma_of. xr_eval.
  assert (Hn1 : 1 <= IZR (n_dim + 1)) by (apply IZR_le; lia).
  rewrite xr_div by lra.
  assert (Hq : 0 <= (m + - (1)) / IZR (n_dim + 1)).
  { apply Rmult_le_pos; [lra|]. apply Rlt_le, Rinv_0_lt_compat. lra. }
  rewrite xr_sqrt by exact Hq. xr_eval.
  match goal with
  | |- context [jnp_maximum (Fin 0) (Fin ?b)] =>
      destruct (jnp_maximum_zero_fin b) as (c & Hc & Hc0)
  end.
  change zero with (Fin 0) in Hc. rewrite Hc. xr_eval.
  eexists. split; [reflexivity|]. lra.
Qed.

Lemma chi_n_fin (n_dim : Z) :
  (1 <= n_dim)%Z -> exists c, chi_n_of n_dim = Ok (Fin c) /\ 0 < c.
Proof.
  intros Hn. unfold chi_n_of.
  replace (n_dim =? 0)%Z with false by (symmetry; apply Z.eqb_neq; lia).
  assert (Hn1 : 1 <= IZR n_dim) by (apply IZR_le; exact Hn).
  assert (Hn2 : 1 <= IZR (n_dim ^ 2)) by (apply IZR_le; nia).
  xr_eval.
  rewrite xr_sqrt by lra.
  rewrite (@xr_div 1 (4 * IZR n_dim)) by lra.
  rewrite (@xr_div 1 (21 * IZR (n_dim ^ 2))) by lra.
  xr_eval. eexists. split; [reflexivity|].
  assert (0 < sqrt (IZR n_dim)) by (apply sqrt_lt_R0; lra).
  assert (1 / (4 * IZR n_dim) <= 1 / 4).
  { unfold Rdiv. rewrite !Rmult_1_l. apply Rinv_le_contravar; lra. }
  assert (0 < 1 / (21 * IZR (n_dim ^ 2))).
  { apply Rdiv_lt_0_compat; lra. }
  apply Rmult_lt_0_compat; lra.
Qed.

(** The step size grows exactly when the evolution path is longer than
    expected.  With the parameters [init_strategy] returns (population of at
    least two, [mu] at least one and selecting no negative raw weight, mean
    of dimension at least one), [chi_n] is a positive real, and for every
    state with a positive step size [sigma] and every [norm_p_sigma],
    [update_sigma] returns a positive real that is larger than [sigma]
    exactly when [norm_p_sigma > chi_n] and smaller exactly when
    [norm_p_sigma < chi_n]. *)
Theorem update_sigma_direction :
  forall (mean_init : list xreal) (sigma0 : xreal) (population_size mu0 : Z),
    mean_init <> [] ->
    (2 <= population_size)%Z ->
    (1 <= mu0)%Z ->
    (2 * mu0 <= population_size + 1)%Z ->
    exists p m chi,
      init_strategy mean_init sigma0 population_size mu0 = Ok (p, m)
      /\ chi_n p = Fin chi /\ 0 < chi
      /\ forall (memory : Memory xreal) (s n : R),
          sigma memory = Fin s -> 0 < s ->
          exists s',
            update_sigma (Fin n) p memory = Fin s' /\ 0 < s'
            /\ (s < s' <-> chi < n) /\ (s' < s <-> n < chi).
Proof.
  intros mean_init sigma0 population_size mu0 Hne Hp Hmu Hhi.
  unfold init_strategy.
  destruct mean_init as [|a l]; [congruence|].
  set (n0 := Z.of_nat (length (a :: l))).
  assert (Hn : (1 <= n0)%Z) by (unfold n0; simpl length; lia).
  destruct (chi_n_fin Hn) as (chi & -> & Hchi).
  cbn [bind]. eexists. eexists. exists chi. split; [reflexivity|].
  cbn [chi_n]. split; [reflexivity|]. split; [exact Hchi|].
  intros memory s n Hsig Hs. unfold update_sigma.
  cbn [c_sigma d_sigma chi_n]. rewrite Hsig.
  destruct (mu_eff_ge_1 Hp Hmu Hhi) as (m & Hm1 & ->).
  destruct (@c_sigma_fin n0 m) as (cs & -> & Hcs); [lia|lra|].
  destruct (@d_sigma_fin n0 m cs) as (d & -> & Hd); [lia|lra|lra|].
  rewrite (@xr_div cs d), (@xr_div n chi) by lra.
  xr_eval. cbn [fexp xreal_elementary xexp]. xr_eval.
  set (u := n / chi + - (1)).
  set (k := cs / d).
  assert (Hk : 0 < k) by (apply Rdiv_lt_0_compat; lra).
  assert (Hu : n - chi = u * chi) by (unfold u; field; lra).
  eexists. split; [reflexivity|].
  pose proof (exp_pos (k * u)) as He.
  split; [apply Rmult_lt_0_compat; assumption|].
  assert (Hsign : (0 < k * u <-> chi < n) /\ (k * u < 0 <-> n < chi)).
  { destruct (Rtotal_order u 0) as [Hu0|[Hu0|Hu0]].
    - assert (k * u < 0) by (rewrite Rmult_comm; apply Rmult_neg_pos; lra).
      assert (u * chi < 0) by (apply Rmult_neg_pos; lra).
      split; split; intros; lra.
    - rewrite Hu0 in *. rewrite Rmult_0_r. rewrite Rmult_0_l in Hu.
      split; split; intros; lra.
    - assert (0 < k * u) by (apply Rmult_lt_0_compat; lra).
      assert (0 < u * chi) by (apply Rmult_lt_0_compat; lra).
      split; split; intros; lra. }
  destruct Hsign as [Hgt Hlt].
  assert (Hexp : (1 < exp (k * u) <-> 0 < k * u)
                 /\ (exp (k * u) < 1 <-> k * u < 0)).
  { rewrite <- exp_0. split; split; intros Hx.
    - apply exp_lt_inv. exact Hx.
    - apply exp_increasing. exact Hx.
    - apply exp_lt_inv. exact Hx.
    - apply exp_increasing. exact Hx. }
  destruct Hexp as [Hegt Helt].
  split; split; intros Hx.
  - apply Hgt, Hegt. apply Rmult_lt_reg_l with s; [exact Hs|]. lra.
  - apply Hgt, Hegt in Hx.
    replace s with (s * 1) at 1 by ring.
    apply Rmult_lt_compat_l; assumption.
  - apply Hlt, Helt. apply Rmult_lt_reg_l with s; [exact Hs|]. lra.
  - apply Hlt, Helt in Hx.
    replace s with (s * 1) at 2 by ring.
    apply Rmult_lt_compat_l; assumption.
Qed.


(** Instances: a mean of dimension two. *)
Lemma init_strategy_exact_rates_witness :
  exists p m c1 cm cs cc,
    init_strategy [Fin 0; Fin 0] (Fin 1) 4 2 = Ok (p, m)
    /\ c_1 p = Fin c1 /\ c_mu p = Fin cm
    /\ c_sigma p = Fin cs /\ c_c p = Fin cc
    /\ 0 < c1 < 1 / 2 /\ 0 <= cm /\ c1 + cm <= 1 - 1 / 100000000
    /\ 0 < cs < 1 /\ 0 < cc <= 1.
Proof.
  apply (@init_strategy_exact_rates [Fin 0; Fin 0] (Fin 1) 4 2).
  - discriminate.
  - lia.
  - lia.
Defined.

Lemma init_strategy_small_population_witness :
  exists p m,
    init_strategy [Fin 0; Fin 0] (Fin 1) 1 1 = Ok (p, m)
    /\ mu_eff p = NaN /\ c_1 p = NaN /\ c_mu p = NaN
    /\ c_sigma p = NaN /\ d_sigma p = NaN /\ c_c p = NaN
    /\ (c_1 p <=? one - c_mu p)%num = false
    /\ (c_mu p <=? one - c_1 p)%num = false
    /\ (c_sigma p <? one)%num = false
    /\ (c_c p <=? one)%num = false.
Proof.
  apply (@init_strategy_small_population [Fin 0; Fin 0] (Fin 1) 1 1).
  - discriminate.
  - lia.
Defined.

Lemma weights_prime_decreasing_witness :
  exists a b,
    nth_error (weights_prime 4) 0 = Some (Fin a)
    /\ nth_error (weights_prime 4) 3 = Some (Fin b)
    /\ (Fin b <? Fin a)%num = true.
Proof.
  apply (@weights_prime_decreasing 4 0 3).
  simpl. lia.
Defined.

Lemma init_strategy_selected_weights_witness :
  exists p m,
    init_strategy [Fin 0; Fin 0] (Fin 1) 5 2 = Ok (p, m)
    /\ jnp_sum (slice_to (weights p) 2) = one
    /\ Forall (fun w => (zero <=? w)%num = true) (slice_to (weights p) 2).
Proof.
  apply (@init_strategy_selected_weights [Fin 0; Fin 0] (Fin 1) 5 2).
  - discriminate.
  - lia.
  - lia.
Defined.

Lemma update_sigma_direction_witness :
  exists p m chi,
    init_strategy [Fin 0; Fin 0] (Fin 1) 4 2 = Ok (p, m)
    /\ chi_n p = Fin chi /\ 0 < chi
    /\ forall (memory : Memory xreal) (s n : R),
        sigma memory = Fin s -> 0 < s ->
        exists s',
          update_sigma (Fin n) p memory = Fin s' /\ 0 < s'
          /\ (s < s' <-> chi < n) /\ (s' < s <-> n < chi).
Proof.
  apply (@update_sigma_direction [Fin 0; Fin 0] (Fin 1) 4 2).
  - discriminate.
  - lia.
  - lia.
  - lia.
Defined.

End OnExtendedReals.

(** ** The ranking of the candidates in [tell] *)

Section Sorting.
Context {F : Type} `{Scalar F}.

Lemma insert_row_permutation (x : F * list F) (l : list (F * list F)) :
  Permutation (insert_row x l) (x :: l).
Proof.
  induction l as [|y l IH]; cbn [insert_row]; [apply Permutation_refl|].
  destruct (key_before _ _).
  - apply perm_trans with (y :: x :: l); [|apply perm_swap].
    apply perm_skip. exact IH.
  - apply Permutation_refl.
Qed.

(** The rows that [tell] sorts by fitness are the rows it was given: sorting
    loses no candidate and repeats none, whatever the fitness values are
    (NaN included). *)
Theorem sort_rows_permutation :
  forall l : list (F * list F), Permutation (sort_rows l) l.
Proof.
  induction l as [|x l IH]; [apply Permutation_refl|].
  unfold sort_rows in *. cbn [fold_right].
  apply perm_trans with (x :: fold_right insert_row [] l).
  - apply insert_row_permutation.
  - apply perm_skip. exact IH.
Qed.

End Sorting.

Section SortingOnExtendedReals.
Local Open Scope R_scope.

Lemma key_before_asym (x y : xreal) :
  key_before x y = true -> key_before y x = false.
Proof.
  unfold key_before, isnan.
  destruct x as [a| | |], y as [b| | |]; cbn [feq flt xreal_scalar xeq xlt];
    rewrite ?Reqb_refl; cbn [negb]; try discriminate; try reflexivity.
  intros Hab. apply Rltb_lt in Hab. apply Rltb_false. lra.
Qed.

Lemma key_before_trans (x y z : xreal) :
  key_before y x = false -> key_before z y = false -> key_before z x = false.
Proof.
  unfold key_before, isnan.
  destruct x as [a| | |], y as [b| | |], z as [c| | |];
    cbn [feq flt xreal_scalar xeq xlt];
    rewrite ?Reqb_refl; cbn [negb]; try discriminate; try reflexivity.
  intros Hab Hbc. apply Rltb_ge in Hab, Hbc. apply Rltb_false. lra.
Qed.

Lemma insert_row_hd (x y : xreal * list xreal) (l : list (xreal * list xreal)) :
  not_after y x -> HdRel not_after y l -> HdRel not_after y (insert_row x l).
Proof.
  intros Hyx Hl. destruct l as [|z l]; cbn [insert_row].
  - constructor. exact Hyx.
  - destruct (key_before _ _).
    + constructor. inversion Hl; subst. assumption.
    + constructor. exact Hyx.
Qed.

Lemma insert_row_sorted (x : xreal * list xreal) (l : list (xreal * list xreal)) :
  Sorted not_after l -> Sorted not_after (insert_row x l).
Proof.
  induction 1 as [|y l Hl IH Hhd]; cbn [insert_row].
  - constructor; constructor.
  - destruct (key_before _ _) eqn:Hyx.
    + constructor; [exact IH|].
      apply insert_row_hd; [|exact Hhd].
      apply key_before_asym. exact Hyx.
    + constructor; [constructor; assumption|].
      constructor. exact Hyx.
Qed.

Lemma sort_rows_locally_sorted (l : list (xreal * list xreal)) :
  Sorted not_after (sort_rows l).
Proof.
  induction l as [|x l IH]; [constructor|].
  unfold sort_rows in *. cbn [fold_right].
  apply insert_row_sorted. exact IH.
Qed.

(** [tell] ranks the candidates by fitness, best first (exact arithmetic):
    in the sorted rows, a row with a real fitness is followed only by rows
    whose fitness is at least as large (or NaN), and a row whose fitness is
    NaN is followed only by rows whose fitness is NaN. *)
Theorem sort_rows_sorted :
  forall l : list (xreal * list xreal),
    StronglySorted not_after (sort_rows l)
    /\ (forall (a b : R) (ra rb : list xreal),
           not_after (Fin a, ra) (Fin b, rb) <-> a <= b)
    /\ (forall (k : xreal) (ra rb : list xreal),
           not_after (NaN, ra) (k, rb) <-> k = NaN)
    /\ (forall (a : R) (ra rb : list xreal), not_after (Fin a, ra) (NaN, rb)).
Proof.
  intros l. split; [|split; [|split]].
  - apply Sorted_StronglySorted; [|apply sort_rows_locally_sorted].
    intros a b c Hab Hbc. unfold not_after in *.
    exact (@key_before_trans _ _ _ Hab Hbc).
  - intros a b ra rb. unfold not_after, key_before, isnan.
    cbn [fst feq flt xreal_scalar xeq xlt]. rewrite !Reqb_refl. cbn [negb].
    split; intros Hx.
    + apply Rltb_ge in Hx. exact Hx.
    + apply Rltb_false. exact Hx.
  - intros k ra rb. unfold not_after, key_before, isnan. cbn [fst].
    destruct k as [b| | |]; cbn [feq flt xreal_scalar xeq xlt];
      rewrite ?Reqb_refl; cbn [negb]; split; intros Hx;
      try discriminate; reflexivity.
  - intros a ra rb. reflexivity.
Qed.

End SortingOnExtendedReals.

(** ** The dimensions of the state *)

Section TellShape.
Context {F : Type} `{Scalar F} `{Elementary F}.
Variable eigh : list (list F) -> list F * list (list F).
Local Open Scope num_scope.

Lemma Forall_map2 {A B C : Type} (P : C -> Prop) (f : A -> B -> C)
    (u : list A) (v : list B) :
  (forall a b, In a u -> In b v -> P (f a b)) -> Forall P (map2 f u v).
Proof.
  revert v. induction u as [|a u IH]; intros [|b v] Hf; cbn [map2];
    try constructor.
  - apply Hf; left; reflexivity.
  - apply IH. intros a' b' Ha Hb. apply Hf; right; assumption.
Qed.

Lemma length_vadd (u v : list F) (n : nat) :
  length u = n -> length v = n -> length (vadd u v) = n.
Proof.
  intros Hu Hv. unfold vadd. rewrite length_map2, Hu, Hv. apply Nat.min_id.
Qed.

Lemma length_vscale (a : F) (v : list F) : length (vscale a v) = length v.
Proof. apply length_map. Qed.

Lemma madd_shape (M N : list (list F)) (n k : nat) :
  has_shape n k M -> has_shape n k N -> has_shape n k (madd M N).
Proof.
  intros [HM HMr] [HN HNr]. unfold madd, vec in *. split.
  - rewrite length_map2, HM, HN. apply Nat.min_id.
  - rewrite Forall_forall in HMr, HNr. apply Forall_map2.
    intros a b Ha Hb. apply length_vadd; auto.
Qed.

Lemma mscale_shape (a : F) (M : list (list F)) (n k : nat) :
  has_shape n k M -> has_shape n k (mscale a M).
Proof.
  intros [HM HMr]. unfold mscale. split; [rewrite length_map; exact HM|].
  apply Forall_forall. intros r Hin. apply in_map_iff in Hin as (r0 & <- & Hr0).
  rewrite length_vscale. rewrite Forall_forall in HMr. auto.
Qed.

Lemma outer_shape (u v : list F) : has_shape (length u) (length v) (outer u v).
Proof.
  unfold outer. split; [apply length_map|].
  apply Forall_forall. intros r Hin. apply in_map_iff in Hin as (a & <- & _).
  apply length_vscale.
Qed.

Lemma zeros_shape (n : nat) : has_shape n n (repeat (@zeros F _ n) n).
Proof.
  split; [apply repeat_length|].
  apply Forall_forall. intros r Hin. apply repeat_spec in Hin. subst r.
  apply repeat_length.
Qed.

Lemma fold_madd_shape (l : list (list (list F))) (Z0 : list (list F))
    (n k : nat) :
  has_shape n k Z0 -> Forall (has_shape n k) l ->
  has_shape n k (fold_left madd l Z0).
Proof.
  intros HZ Hl. revert Z0 HZ. induction Hl as [|M l HM _ IH]; intros Z0 HZ;
    cbn [fold_left]; [exact HZ|].
  apply IH. apply madd_shape; assumption.
Qed.

Lemma update_mean_shape (sorted : list (list F)) (mu0 : Z)
    (params : Params F) (memory : Memory F) (n : nat) :
  length (mean memory) = n ->
  Forall (fun r => length (tl r) = n) sorted ->
  Forall (fun y => length y = n)
         (fst (fst (update_mean sorted mu0 params memory)))
  /\ length (snd (fst (update_mean sorted mu0 params memory))) = n
  /\ length (snd (update_mean sorted mu0 params memory)) = n.
Proof.
  intros Hmean Hsorted. unfold update_mean. cbn [fst snd].
  assert (Hyw : forall (f : list F -> F) (M : list (list F)),
             length (map f (transpose_cols (length (mean memory)) M)) = n).
  { intros f M. rewrite length_map.
    rewrite (proj1 (transpose_cols_shape _ _)). exact Hmean. }
  repeat split.
  - rewrite map_map. apply Forall_forall. intros y Hin.
    apply in_map_iff in Hin as (r & <- & Hr).
    rewrite Forall_forall in Hsorted. specialize (Hsorted r Hr).
    rewrite length_map. unfold vsub. rewrite length_map2.
    unfold vec in *. rewrite Hsorted, Hmean. apply Nat.min_id.
  - apply Hyw.
  - apply length_vadd; [exact Hmean|]. rewrite length_vscale. apply Hyw.
Qed.

Lemma update_p_sigma_shape (y_w : list F) (params : Params F)
    (memory : Memory F) (n : nat) :
  length (p_sigma memory) = n ->
  length (snd (fst (eigen_decomposition eigh (C memory) (B memory)
                                        (D memory)))) = n ->
  exists p C_2,
    update_p_sigma eigh y_w params memory
    = (p, C_2,
       fst (fst (eigen_decomposition eigh (C memory) (B memory) (D memory))),
       None, None)
    /\ length p = n.
Proof.
  intros Hps HB. unfold update_p_sigma.
  destruct (eigen_decomposition eigh (C memory) (B memory) (D memory))
    as [[C' B'] D'].
  cbn [fst snd] in *. eexists. eexists. split; [reflexivity|].
  apply length_vadd; [rewrite length_vscale; exact Hps|].
  rewrite length_vscale. unfold mvdot. rewrite length_map.
  rewrite (proj1 (dot_shape _ _)), (proj1 (dot_shape _ _)). exact HB.
Qed.

Lemma update_p_c_shape (y_w : list F) (params : Params F)
    (memory : Memory F) (n : nat) :
  length (p_c memory) = n -> length y_w = n ->
  length (fst (fst (update_p_c y_w params memory))) = n.
Proof.
  intros Hpc Hyw. unfold update_p_c. cbn [fst].
  apply length_vadd; [rewrite length_vscale; exact Hpc|].
  rewrite length_vscale. exact Hyw.
Qed.

Lemma update_covariance_shape (y_k : list (list F)) (h_sigma : F)
    (C_2 : list (list F)) (params : Params F) (memory : Memory F) (n : nat) :
  length (mean memory) = n ->
  length (p_c memory) = n ->
  has_shape n n (C memory) ->
  Forall (fun y => length y = n) y_k ->
  has_shape n n (update_covariance y_k h_sigma C_2 params memory).
Proof.
  intros Hmean Hpc HC Hyk. unfold update_covariance. rewrite Hmean.
  apply madd_shape; [apply madd_shape|]; apply mscale_shape.
  - exact HC.
  - rewrite <- Hpc at 1 2. apply outer_shape.
  - apply fold_madd_shape; [apply zeros_shape|].
    apply Forall_map2. intros w y _ Hy. apply mscale_shape.
    rewrite Forall_forall in Hyk. specialize (Hyk y Hy).
    rewrite <- Hyk at 1 2. apply outer_shape.
Qed.

(** [tell] keeps the dimensions of the state: when the mean and both
    evolution paths have [n] entries, every candidate has [n] entries and
    the decomposition in use is of an [n] by [n] matrix, the state that
    [tell] returns has a mean and evolution paths of [n] entries and an
    [n] by [n] covariance matrix, so that [ask] and [tell] can be iterated.
    The candidates come one per fitness value and one per weight. *)
Theorem tell_keeps_the_shape :
  forall (x : list (list F)) (fitness : list F) (mu0 : Z)
         (params : Params F) (memory : Memory F) (n : nat),
    length (mean memory) = n ->
    length (p_sigma memory) = n ->
    length (p_c memory) = n ->
    Forall (fun r => length r = n) x ->
    length fitness = length x ->
    length (weights params) = length x ->
    has_shape n n (fst (fst (eigen_decomposition eigh (C memory) (B memory)
                                                 (D memory)))) ->
    has_shape n n (snd (fst (eigen_decomposition eigh (C memory) (B memory)
                                                 (D memory)))) ->
    length (snd (eigen_decomposition eigh (C memory) (B memory) (D memory)))
    = n ->
    let memory' := tell_cma_strategy eigh x fitness mu0 params memory in
    length (mean memory') = n /\ length (p_sigma memory') = n
    /\ length (p_c memory') = n /\ has_shape n n (C memory').
Proof.
  intros x fitness mu0 params memory n Hmean Hps Hpc Hx _ _ HC [HB _] _.
  unfold tell_cma_strategy.
  set (sorted := map (fun '(f, r) => f :: r) (sort_rows (combine fitness x))).
  assert (Hsorted : Forall (fun r => length (tl r) = n) sorted).
  { unfold sorted. apply Forall_forall. intros r Hin.
    apply in_map_iff in Hin as ([f r0] & <- & Hr0). cbn [tl].
    apply (Permutation_in _ (sort_rows_permutation _)) in Hr0.
    apply in_combine_r in Hr0. rewrite Forall_forall in Hx. auto. }
  match goal with
  | |- context [update_mean sorted mu0 params ?m] =>
      destruct (@update_mean_shape sorted mu0 params m n Hmean Hsorted)
        as (Hyk & Hyw & Hmean');
      destruct (update_mean sorted mu0 params m) as [[y_k y_w] mean']
  end.
  cbn [fst snd] in Hyk, Hyw, Hmean'.
  cbn [mean sigma p_sigma p_c C B D generation].
  match goal with
  | |- context [update_p_sigma eigh y_w params ?m] =>
      destruct (@update_p_sigma_shape y_w params m n Hps HB)
        as (p & C_2 & -> & Hp)
  end.
  cbn [mean sigma p_sigma p_c C B D generation].
  match goal with
  | |- context [update_p_c y_w params ?m] =>
      pose proof (@update_p_c_shape y_w params m n Hpc Hyw) as Hpc';
      destruct (update_p_c y_w params m) as [[p_c' norm_p_sigma] h_sigma]
  end.
  cbn [fst] in Hpc'.
  cbn [mean sigma p_sigma p_c C B D generation].
  repeat split; try assumption.
  - apply update_covariance_shape; assumption.
  - apply update_covariance_shape; assumption.
Qed.

End TellShape.

Section TellShapeOnExtendedReals.
Import RunX.

Lemma tell_keeps_the_shape_witness :
  let memory' := tell_cma_strategy no_eigh candidates fitness 1 params state in
  length (mean memory') = 2%nat /\ length (p_sigma memory') = 2%nat
  /\ length (p_c memory') = 2%nat /\ has_shape 2 2 (C memory').
Proof.
  apply (@tell_keeps_the_shape xreal _ _ no_eigh candidates fitness 1
           params state 2%nat).
  - reflexivity.
  - reflexivity.
  - reflexivity.
  - repeat constructor.
  - reflexivity.
  - reflexivity.
  - split; [reflexivity|]. repeat constructor.
  - split; [reflexivity|]. repeat constructor.
  - reflexivity.
Defined.

End TellShapeOnExtendedReals.

(** ** build_docs.py: reading the version *)

Section BuildDocsProperties.
Import BuildDocs.
Local Open Scope string_scope.

Lemma unquoted_tail (c : ascii) (v : string) : unquoted (String c v) -> unquoted v.
Proof. intros Hv c' Hc'. apply Hv. right. exact Hc'. Qed.

Lemma unquoted_head (c : ascii) (v : string) :
  unquoted (String c v) -> is_quote c = false.
Proof. intros Hv. apply Hv. left. reflexivity. Qed.

Lemma span_unquoted_run (v rest : string) (q : ascii) :
  unquoted v -> is_quote q = true ->
  span_unquoted (v ++ String q rest) = (v, String q rest).
Proof.
  intros Hv Hq. induction v as [|c v IH]; cbn [append span_unquoted].
  - rewrite Hq. reflexivity.
  - rewrite (@unquoted_head c v Hv), (IH (@unquoted_tail c v Hv)). reflexivity.
Qed.

Lemma span_unquoted_spec (s : string) :
  unquoted (fst (span_unquoted s)).
Proof.
  induction s as [|c s IH]; cbn [span_unquoted].
  - intros c [].
  - destruct (is_quote c) eqn:Hc; [intros c' []|].
    destruct (span_unquoted s) as [v rest]. cbn [fst] in *.
    intros c' [<-|Hc']; [exact Hc|apply IH; exact Hc'].
Qed.

Lemma match_here_version_line (q1 q2 : ascii) (v rest : string) :
  is_quote q1 = true -> is_quote q2 = true -> unquoted v ->
  match_here ("__version__ = " ++ String q1 (v ++ String q2 rest)) = Some v.
Proof.
  intros H1 H2 Hv. unfold match_here. cbn [append after_literal Ascii.eqb].
  cbn. rewrite H1, (@span_unquoted_run v rest q2 Hv H2). reflexivity.
Qed.

(** What [after_literal] leaves is a suffix of the text. *)
Lemma after_literal_suffix (lit s t : string) :
  after_literal lit s = Some t -> s = lit ++ t.
Proof.
  revert s. induction lit as [|a lit IH]; intros s; cbn [after_literal append].
  - intros [= ->]. reflexivity.
  - destruct s as [|b s]; [discriminate|].
    destruct (Ascii.eqb a b) eqn:Hab; [|discriminate].
    apply Ascii.eqb_eq in Hab. subst b. intros Ht.
    rewrite (IH s Ht). reflexivity.
Qed.

Lemma unquoted_app_r (u v : string) : unquoted (u ++ v) -> unquoted v.
Proof.
  induction u as [|c u IH]; cbn [append]; [auto|].
  intros Huv. apply IH. exact (@unquoted_tail _ _ Huv).
Qed.

Lemma match_here_unquoted (s : string) : unquoted s -> match_here s = None.
Proof.
  intros Hs. unfold match_here.
  destruct (after_literal "__version__ = " s) as [[|q t]|] eqn:Ha;
    try reflexivity.
  apply after_literal_suffix in Ha. rewrite Ha in Hs.
  apply unquoted_app_r in Hs. rewrite (@unquoted_head _ _ Hs). reflexivity.
Qed.

Lemma search_unquoted (s : string) (anchored : bool) :
  unquoted s -> search anchored s = None.
Proof.
  revert anchored. induction s as [|c s IH]; intros anchored Hs;
    cbn [search]; rewrite (@match_here_unquoted _ Hs);
    destruct anchored; try reflexivity; apply IH; exact (@unquoted_tail _ _ Hs).
Qed.

(** A text that reaches a newline before any quote has no match at its
    start: the literal has no newline and is followed by a quote. *)
Lemma after_literal_line (lit l s t : string) :
  ~ In newline (list_ascii_of_string lit) ->
  after_literal lit (l ++ String newline s) = Some t ->
  exists l', l = lit ++ l' /\ t = l' ++ String newline s.
Proof.
  revert l. induction lit as [|a lit IH]; intros l Hnl;
    cbn [after_literal append].
  - intros [= <-]. exists l. split; reflexivity.
  - destruct l as [|b l]; cbn [append].
    + destruct (Ascii.eqb a newline) eqn:Ha; [|discriminate].
      apply Ascii.eqb_eq in Ha. exfalso. apply Hnl. left. exact Ha.
    + destruct (Ascii.eqb a b) eqn:Hab; [|discriminate].
      apply Ascii.eqb_eq in Hab. subst b. intros Ht.
      destruct (IH l) as (l' & -> & ->); [|exact Ht|].
      * intros Hin. apply Hnl. right. exact Hin.
      * exists l'. split; reflexivity.
Qed.

Lemma match_here_line (l s : string) :
  unquoted l -> match_here (l ++ String newline s) = None.
Proof.
  intros Hl. unfold match_here.
  destruct (after_literal "__version__ = " (l ++ String newline s))
    as [[|q t]|] eqn:Ha; try reflexivity.
  apply after_literal_line in Ha as (l' & -> & Ht).
  - apply unquoted_app_r in Hl. destruct l' as [|c l']; cbn [append] in Ht.
    + injection Ht as -> _. reflexivity.
    + injection Ht as -> _. rewrite (@unquoted_head _ _ Hl). reflexivity.
  - cbn. intros Hin.
    repeat (destruct Hin as [Hin|Hin]; [discriminate Hin|]). exact Hin.
Qed.

Lemma search_line (l s : string) (anchored : bool) :
  unquoted l -> search anchored (l ++ String newline s) = search true s.
Proof.
  revert anchored. induction l as [|c l IH]; intros anchored Hl;
    pose proof (@match_here_line _ s Hl) as Hm; cbn [append] in Hm;
    cbn [append search]; rewrite Hm.
  - rewrite Ascii.eqb_refl. destruct anchored; reflexivity.
  - destruct anchored; apply IH; exact (@unquoted_tail _ _ Hl).
Qed.

Lemma append_line (l acc s : string) :
  (l ++ String newline acc) ++ s = l ++ String newline (acc ++ s).
Proof.
  induction l as [|c l IH]; cbn [append]; [reflexivity|].
  rewrite IH. reflexivity.
Qed.

Lemma search_header (lines : list string) (s : string) :
  Forall unquoted lines -> search true (header lines ++ s) = search true s.
Proof.
  induction 1 as [|l lines Hl _ IH]; cbn [header fold_right append];
    [reflexivity|].
  fold (header lines). rewrite append_line.
  rewrite (@search_line l (header lines ++ s) true Hl). exact IH.
Qed.

Lemma search_match (s v : string) :
  match_here s = Some v -> search true s = Some v.
Proof. intros Hm. destruct s; cbn [search]; rewrite Hm; reflexivity. Qed.

(** Reading back a version: after any number of lines without quote
    characters, the line [__version__ = ] followed by a quote, a text [v]
    without quotes and a quote gives [v], whatever follows it; the two
    quotes need not be the same character, and a later version line is not
    looked at. *)
Theorem get_version_reads_the_version_line :
  forall (VERSIONFILE : string) (fs : files) (lines : list string)
         (q1 q2 : ascii) (v rest : string),
    fs VERSIONFILE
    = Some (header lines
            ++ "__version__ = " ++ String q1 (v ++ String q2 rest)) ->
    Forall unquoted lines ->
    is_quote q1 = true -> is_quote q2 = true -> unquoted v ->
    get_version VERSIONFILE fs = inl v
    /\ footer_text VERSIONFILE fs = inl ("evosax v" ++ v).
Proof.
  intros VERSIONFILE fs lines q1 q2 v rest Hfs Hlines H1 H2 Hv.
  assert (Hg : get_version VERSIONFILE fs = inl v).
  { unfold get_version. rewrite Hfs, (@search_header lines _ Hlines).
    rewrite (@search_match _ v (@match_here_version_line q1 q2 v rest H1 H2 Hv)).
    reflexivity. }
  split; [exact Hg|]. unfold footer_text. rewrite Hg. reflexivity.
Qed.

(** Without a quote character in the file there is no version: the call
    raises [RuntimeError] with the message that names the file. *)
Theorem get_version_without_quotes :
  forall (VERSIONFILE : string) (fs : files) (text : string),
    fs VERSIONFILE = Some text ->
    unquoted text ->
    get_version VERSIONFILE fs
    = inr (RuntimeError
             ("Unable to find version string in " ++ VERSIONFILE ++ ".")).
Proof.
  intros VERSIONFILE fs text Hfs Htext. unfold get_version.
  rewrite Hfs, (@search_unquoted text true Htext). reflexivity.
Qed.

Lemma match_here_result (s v : string) : match_here s = Some v -> unquoted v.
Proof.
  unfold match_here.
  destruct (after_literal "__version__ = " s) as [[|q t]|]; try discriminate.
  destruct (is_quote q); [|discriminate].
  pose proof (span_unquoted_spec t) as Hspan.
  destruct (span_unquoted t) as [v' [|c rest]]; [discriminate|].
  intros [= <-]. exact Hspan.
Qed.

Lemma search_result (s v : string) (anchored : bool) :
  search anchored s = Some v -> unquoted v.
Proof.
  revert anchored. induction s as [|c s IH]; intros anchored; cbn [search].
  - destruct anchored; [|discriminate].
    destruct (match_here EmptyString) eqn:Hm; [|discriminate].
    intros [= <-]. exact (@match_here_result _ _ Hm).
  - destruct anchored.
    + destruct (match_here (String c s)) eqn:Hm.
      * intros [= <-]. exact (@match_here_result _ _ Hm).
      * apply IH.
    + apply IH.
Qed.

(** The version that [get_version] returns never contains a quote
    character, whatever the file holds. *)
Theorem get_version_has_no_quote :
  forall (VERSIONFILE : string) (fs : files) (v : string),
    get_version VERSIONFILE fs = inl v -> unquoted v.
Proof.
  intros VERSIONFILE fs v. unfold get_version.
  destruct (fs VERSIONFILE) as [text|]; [|discriminate].
  destruct (search true text) as [v'|] eqn:Hs; [|discriminate].
  intros [= <-]. exact (@search_result _ _ _ Hs).
Qed.

Lemma unquoted_release : unquoted "0.1.0".
Proof.
  intros c Hc. cbn in Hc.
  repeat (destruct Hc as [<-|Hc]; [reflexivity|]). contradiction.
Qed.

Lemma unquoted_comments : Forall unquoted ["# evosax"; "# release"].
Proof.
  repeat constructor; intros c Hc; cbn in Hc;
    repeat (destruct Hc as [<-|Hc]; [reflexivity|]); contradiction.
Qed.

Lemma get_version_reads_the_version_line_witness :
  get_version "evosax/_version.py"
              (one_file "evosax/_version.py" version_file)
  = inl "0.1.0"
  /\ footer_text "evosax/_version.py"
                 (one_file "evosax/_version.py" version_file)
     = inl ("evosax v" ++ "0.1.0").
Proof.
  apply (@get_version_reads_the_version_line
           "evosax/_version.py" (one_file "evosax/_version.py" version_file)
           ["# evosax"; "# release"] single_quote single_quote "0.1.0"
           (String newline EmptyString)).
  - reflexivity.
  - exact unquoted_comments.
  - reflexivity.
  - reflexivity.
  - exact unquoted_release.
Defined.

Lemma get_version_without_quotes_witness :
  get_version "evosax/_version.py" (one_file "evosax/_version.py" "0.1.0")
  = inr (RuntimeError
           ("Unable to find version string in " ++ "evosax/_version.py"
            ++ ".")).
Proof.
  apply (@get_version_without_quotes
           "evosax/_version.py" (one_file "evosax/_version.py" "0.1.0")
           "0.1.0").
  - reflexivity.
  - exact unquoted_release.
Defined.

Lemma get_version_has_no_quote_witness :
  get_version "evosax/_version.py"
              (one_file "evosax/_version.py" version_file)
  = inl "0.1.0"
  /\ unquoted "0.1.0".
Proof.
  split; [reflexivity|].
  apply (@get_version_has_no_quote
           "evosax/_version.py" (one_file "evosax/_version.py" version_file)
           "0.1.0").
  reflexivity.
Defined.

End BuildDocsProperties.
